(** * Divisors and prime factors (src/prime_factors.py)

    A shallow embedding of [find_divisors] and [find_prime_factors] and of
    the part of Python they run on: unbounded integers, [math.sqrt] on
    IEEE-754 binary64 floats, [int()] truncation, [range], list append and
    [list.sort], sets of integers, and exceptions.

    Both functions take their loop bound from [int(math.sqrt(n))]. The
    development shows where that bound is the integer square root
    (below [2^52 + 2^27]), where it is still good enough for both loops
    (below [2^103]), and what happens beyond: duplicates and missing
    divisors from about [2^104] on, [OverflowError] from [2^1024 - 2^970]
    on, [ValueError] for negative arguments. *)

From Stdlib Require Import ZArith List Lia Zdivisibility.
From Stdlib Require Import Sorting.Sorted Sorting.Permutation.
From stdpp Require Import base gmap sets list sorting.

Local Open Scope Z_scope.

(** ** Outcomes of running a piece of Python *)

(** The two exceptions [math.sqrt] can raise on an [int] argument. *)
Inductive exn : Type :=
  | ValueError      (* math domain error *)
  | OverflowError.  (* int too large to convert to float *)

(** A run returns a value, raises, or is cut off by the step budget of the
    model (only [while] loops consume budget). *)
Inductive outcome (A : Type) : Type :=
  | Returns (a : A)
  | Raises (e : exn)
  | OutOfFuel.

Arguments Returns {A} a.
Arguments Raises {A} e.
Arguments OutOfFuel {A}.

(** Sequencing: an exception or an exhausted budget ends the run. *)
#[global] Instance outcome_bind : MBind outcome := fun A B k m =>
  match m with
  | Returns a => k a
  | Raises e => Raises e
  | OutOfFuel => OutOfFuel
  end.

(** ** [math.sqrt] and [int()] on binary64 *)

Module Float.

(** A finite binary64 number: [(-1)^neg * mant * 2^expo], where [mant] is
    0 or has exactly 53 bits. *)
Record float : Type := { neg : bool; mant : Z; expo : Z }.

Definition prec : Z := 53.
(** Largest exponent of the last mantissa bit of a finite binary64. *)
Definition emax : Z := 971.

(** [int.bit_length()] *)
Definition bit_length (a : Z) : Z :=
  if a =? 0 then 0 else Z.log2 (Z.abs a) + 1.

(** [a / 2^s] rounded to the nearest integer, ties to the even one. *)
Definition round_half_even (a s : Z) : Z :=
  let q := a / 2 ^ s in
  let r := a mod 2 ^ s in
  let half := 2 ^ (s - 1) in
  if r <? half then q
  else if half <? r then q + 1
  else if Z.even q then q else q + 1.

(** [float(n)] for an [int]: correctly rounded, [OverflowError] when the
    rounded value is not finite. *)
Definition float_of_int (n : Z) : outcome float :=
  let a := Z.abs n in
  if a =? 0 then Returns {| neg := false; mant := 0; expo := 0 |}
  else
    let s := bit_length a - prec in
    if s <=? 0 then
      Returns {| neg := n <? 0; mant := a * 2 ^ (- s); expo := s |}
    else
      let m := round_half_even a s in
      let '(m, s) := if m =? 2 ^ prec then (2 ^ (prec - 1), s + 1) else (m, s) in
      if emax <? s then Raises OverflowError
      else Returns {| neg := n <? 0; mant := m; expo := s |}.

(** The integer nearest to the real square root of [N] (it is never a
    tie: [(q + 1/2)^2] is not an integer). *)
Definition sqrt_nearest (N : Z) : Z :=
  let q := Z.sqrt N in
  if N - q * q <=? q then q else q + 1.

(** Correctly rounded square root of a non-negative float. *)
Definition fsqrt (x : float) : float :=
  if mant x =? 0 then x
  else if Z.even (expo x) then
    {| neg := false;
       mant := sqrt_nearest (mant x * 2 ^ 52);
       expo := expo x / 2 - 26 |}
  else
    {| neg := false;
       mant := sqrt_nearest (mant x * 2 ^ 53);
       expo := (expo x - 1) / 2 - 26 |}.

(** [math.sqrt(n)] for an [int] [n]: the argument is converted to a float
    first, then the domain is checked. *)
Definition math_sqrt (n : Z) : outcome float :=
  x ← float_of_int n;
  if neg x then Raises ValueError else Returns (fsqrt x).

(** [int(x)]: truncation toward zero. *)
Definition int_of_float (x : float) : Z :=
  let a := if 0 <=? expo x then mant x * 2 ^ expo x
           else mant x / 2 ^ (- expo x) in
  if neg x then - a else a.

End Float.

(** [int(math.sqrt(n))], the loop bound of both functions. *)
Definition int_sqrt (n : Z) : outcome Z :=
  r ← Float.math_sqrt n;
  Returns (Float.int_of_float r).

(** ** [range], [list.sort] and the [for] loop *)

(** [range(lo, hi)] *)
Definition range (lo hi : Z) : list Z := seqZ lo (hi - lo).

Fixpoint insert_sorted (x : Z) (l : list Z) : list Z :=
  match l with
  | [] => [x]
  | y :: l' => if x <=? y then x :: l else y :: insert_sorted x l'
  end.

(** [list.sort()] on a list of integers: the ascending rearrangement. *)
Definition sort (l : list Z) : list Z := foldr insert_sorted [] l.

(** [for i in l: body], where the body may raise or run out of budget. *)
Fixpoint for_each {St : Type} (body : Z -> St -> outcome St) (l : list Z)
    (st : St) : outcome St :=
  match l with
  | [] => Returns st
  | i :: l' => st' ← body i st; for_each body l' st'
  end.

(** ** [find_divisors] *)

(** One iteration of the loop of [find_divisors]. *)
Definition divisors_body (n : Z) (divisors : list Z) (i : Z) : list Z :=
  if n mod i =? 0 then
    let divisors := divisors ++ [i] in
    if negb (i =? n / i) then divisors ++ [n / i] else divisors
  else divisors.

(** The list built by the loop for a given bound, before sorting. *)
Definition divisors_loop (n bound : Z) : list Z :=
  fold_left (divisors_body n) (range 1 (bound + 1)) [].

Definition find_divisors (n : Z) : outcome (list Z) :=
  bound ← int_sqrt n;
  let divisors := divisors_loop n bound in
  Returns (sort divisors).

(** ** [find_prime_factors] *)

(** The inner loop [while n % i == 0: prime_factors.add(i); n //= i] on the
    local state [(prime_factors, n)]. *)
Fixpoint while_divides (fuel : nat) (i : Z) (st : gset Z * Z)
  : outcome (gset Z * Z) :=
  let '(prime_factors, n) := st in
  if n mod i =? 0 then
    match fuel with
    | O => OutOfFuel
    | S fuel' => while_divides fuel' i ({[ i ]} ∪ prime_factors, n / i)
    end
  else Returns st.

(** The final [if n > 1: prime_factors.add(n)] and the [return]. *)
Definition add_remaining (st : gset Z * Z) : gset Z :=
  let '(prime_factors, n) := st in
  if 1 <? n then {[ n ]} ∪ prime_factors else prime_factors.

(** The outer loop for a given bound. *)
Definition factor_loop (fuel : nat) (n bound : Z) : outcome (gset Z * Z) :=
  for_each (while_divides fuel) (range 2 (bound + 1)) (∅, n).

Definition find_prime_factors (fuel : nat) (n : Z) : outcome (gset Z) :=
  bound ← int_sqrt n;
  st ← factor_loop fuel n bound;
  Returns (add_remaining st).

(** ** The variant that recomputes the bound *)




(** ** Calls from the script *)




(** ** Specifications *)

(** The first integer whose float square root truncates to more than its
    integer square root is [2^52 + 2^27 = (2^26 + 1)^2 - 1]. *)
Definition exact_limit : Z := 2 ^ 52 + 2 ^ 27.

(** A bound below which the float square root, truncated, is the integer
    square root or one more, and one more only where that is harmless. *)
Definition safe_limit : Z := 2 ^ 103.

(** The specification of the returned list: exactly the positive divisors
    of [n], ascending, each once. *)
Definition divisor_list (n : Z) (l : list Z) : Prop :=
  (forall d, d ∈ l -> 0 < d /\ n mod d = 0) /\
  (forall d, 0 < d -> (d | n) -> d ∈ l) /\
  StronglySorted Z.le l /\
  NoDup l.

(** The specification of the returned set. *)
Definition prime_factor_set (n : Z) (X : gset Z) : Prop :=
  forall p, p ∈ X <-> Z.prime p /\ (p | n).

(** How often [p] divides [n], by repeated division. *)
Fixpoint multiplicity_aux (fuel : nat) (p n : Z) : Z :=
  match fuel with
  | O => 0
  | S fuel' =>
      if n mod p =? 0 then 1 + multiplicity_aux fuel' p (n / p) else 0
  end.

(** The multiplicity of [p] in [n] (for [p >= 2], [n >= 1]). *)
Definition multiplicity (p n : Z) : Z :=
  multiplicity_aux (S (Z.to_nat (Z.log2 n))) p n.

(** The product over a set of each element raised to its multiplicity in
    [n]. *)
Definition prime_power_product (n : Z) (X : gset Z) : Z :=
  set_fold (fun p acc => p ^ multiplicity p n * acc) 1 X.

(** State of the run on input [n0] before candidate [i] is tried: the
    working value [m] divides [n0] and has lost every divisor below [i];
    the set holds primes of [n0]; no prime of [n0] is lost. *)
Definition factor_inv (n0 i : Z) (st : gset Z * Z) : Prop :=
  let '(pf, m) := st in
  1 <= m /\ (m | n0) /\
  (forall p, p ∈ pf -> Z.prime p /\ (p | n0)) /\
  (forall p, Z.prime p -> (p | n0) -> p ∈ pf \/ (p | m)) /\
  (forall j, 2 <= j < i -> ~ (j | m)).

(** * Properties *)

(** ** The worked examples of the source *)

Example divisors_of_12 : find_divisors 12 = Returns [1; 2; 3; 4; 6; 12].
Proof. vm_compute. reflexivity. Qed.

Example divisors_of_13 : find_divisors 13 = Returns [1; 13].
Proof. vm_compute. reflexivity. Qed.

Example divisors_of_100 :
  find_divisors 100 = Returns [1; 2; 4; 5; 10; 20; 25; 50; 100].
Proof. vm_compute. reflexivity. Qed.

Example prime_factors_of_12 : find_prime_factors 4 12 = Returns {[ 2; 3 ]}.
Proof. vm_compute. reflexivity. Qed.

Example prime_factors_of_13 : find_prime_factors 4 13 = Returns {[ 13 ]}.
Proof. vm_compute. reflexivity. Qed.

Example prime_factors_of_32 : find_prime_factors 6 32 = Returns {[ 2 ]}.
Proof. vm_compute. reflexivity. Qed.

Example prime_factors_of_60 : find_prime_factors 6 60 = Returns {[ 2; 3; 5 ]}.
Proof. vm_compute. reflexivity. Qed.

Example prime_factors_of_100 : find_prime_factors 7 100 = Returns {[ 2; 5 ]}.
Proof. vm_compute. reflexivity. Qed.

(** The budget counts the divisions of one run of the inner loop: one is
    not enough for [60 = 2^2 * 3 * 5], whose factor 2 takes two. *)
Example prime_factors_of_60_short : find_prime_factors 1 60 = OutOfFuel.
Proof. vm_compute. reflexivity. Qed.

(** ** The loop bound [int(math.sqrt(n))] against [floor(sqrt(n))] *)

Section FloatSqrt.
Import Float.

Lemma sqrt_nearest_bounds N :
  0 <= N -> Z.sqrt N <= sqrt_nearest N <= Z.sqrt N + 1.
Proof.
  intros HN. unfold sqrt_nearest.
  destruct (N - Z.sqrt N * Z.sqrt N <=? Z.sqrt N); lia.
Qed.



(** Integers of at most 53 bits convert exactly. *)
Lemma float_of_int_small n :
  0 < n < 2 ^ 53 ->
  float_of_int n =
    Returns {| neg := false; mant := n * 2 ^ (52 - Z.log2 n);
               expo := Z.log2 n - 52 |}.
Proof.
  intros [Hn Hlt].
  assert (Hb : Z.log2 n < 53) by (apply Z.log2_lt_pow2; lia).
  unfold float_of_int, bit_length, prec.
  rewrite !Z.abs_eq by lia.
  destruct (Z.eqb_spec n 0) as [|_]; [lia|].
  destruct (Z.leb_spec (Z.log2 n + 1 - 53) 0) as [_|?]; [|lia].
  destruct (Z.ltb_spec n 0) as [?|_]; [lia|].
  replace (- (Z.log2 n + 1 - 53)) with (52 - Z.log2 n) by lia.
  replace (Z.log2 n + 1 - 53) with (Z.log2 n - 52) by lia.
  reflexivity.
Qed.


(** At [exact_limit] itself the float bound is one too large. *)
Lemma int_sqrt_exact_limit :
  int_sqrt exact_limit = Returns (Z.sqrt exact_limit + 1).
Proof. vm_compute. reflexivity. Qed.

(** *** Rounding errors up to [safe_limit] *)

Lemma sqrt_nearest_near N :
  1 <= N ->
  0 <= sqrt_nearest N /\
  sqrt_nearest N * sqrt_nearest N - sqrt_nearest N < N <=
  sqrt_nearest N * sqrt_nearest N + sqrt_nearest N.
Proof.
  intros HN. unfold sqrt_nearest.
  destruct (Z.sqrt_spec N ltac:(lia)) as [Hlo Hhi]. unfold Z.succ in Hhi.
  pose proof (Z.sqrt_nonneg N) as Hq.
  set (q := Z.sqrt N) in *. clearbody q.
  assert (1 <= q) by nia.
  destruct (Z.leb_spec (N - q * q) q); split; nia.
Qed.

Lemma sq_sub_mono a r : 1 <= a <= r -> a * a - a <= r * r - r.
Proof. intros. nia. Qed.

Lemma sq_add_mono a r : 0 <= r <= a -> r * r + r <= a * a + a.
Proof. intros. nia. Qed.

(** If [r] is too large to be the nearest integer to the root of
    [f * W^2], then [f] is close to [a^2]. *)
Lemma nearest_above a f W r :
  0 < W -> 1 <= a -> a * W <= r -> r * r - r < f * (W * W) ->
  W * (a * a - f) < a.
Proof.
  intros HW Ha Hr HN.
  pose proof (sq_sub_mono (a * W) r ltac:(nia)) as Hm.
  assert (E : a * W * (a * W) - a * W = W * (W * (a * a) - a)) by ring.
  assert (E' : f * (W * W) = W * (W * f)) by ring.
  assert (Hlt : W * (W * (a * a) - a) < W * (W * f)) by lia.
  apply Z.mul_lt_mono_pos_l in Hlt; [|exact HW].
  replace (W * (a * a - f)) with (W * (a * a) - W * f) by ring. lia.
Qed.

Lemma nearest_below a f W r :
  0 < W -> 1 <= a -> 0 <= r < a * W -> f * (W * W) <= r * r + r ->
  a <= W * (a * a - f).
Proof.
  intros HW Ha Hr HN.
  pose proof (sq_add_mono (a * W - 1) r ltac:(lia)) as Hm.
  assert (E : (a * W - 1) * (a * W - 1) + (a * W - 1) = W * (W * (a * a) - a))
    by ring.
  assert (E' : f * (W * W) = W * (W * f)) by ring.
  assert (Hle : W * (W * f) <= W * (W * (a * a) - a)) by lia.
  apply Z.mul_le_mono_pos_l in Hle; [|exact HW].
  replace (W * (a * a - f)) with (W * (a * a) - W * f) by ring. lia.
Qed.

Lemma rounded_root_bounds n f U w :
  1 <= n -> 2 * Z.abs (f - n) <= U -> 1 <= w ->
  U * 2 ^ w < 2 * Z.sqrt n -> U <= Z.sqrt n + 1 ->
  let q := sqrt_nearest (f * 2 ^ (2 * w)) / 2 ^ w in
  Z.sqrt n <= q <= Z.sqrt n + 1 /\
  (n <= Z.sqrt n * (Z.sqrt n + 1) -> q = Z.sqrt n).
Proof.
  intros Hn Hf Hw HUW HU q.
  destruct (Z.sqrt_spec n ltac:(lia)) as [Hlo Hhi]. unfold Z.succ in Hhi.
  pose proof (Z.sqrt_nonneg n) as Hk0.
  set (k := Z.sqrt n) in *.
  assert (Hk1 : 1 <= k) by nia.
  assert (HW2 : 2 <= 2 ^ w).
  { change 2 with (2 ^ 1) at 1. apply Z.pow_le_mono_r; lia. }
  assert (HWW : 2 ^ (2 * w) = 2 ^ w * 2 ^ w).
  { replace (2 * w) with (w + w) by lia. now rewrite Z.pow_add_r by lia. }
  unfold q. rewrite HWW. clear q HWW.
  set (W := 2 ^ w) in *. clearbody W k.
  assert (HU0 : 0 <= U) by lia.
  assert (HU2 : U < 2 * k) by (clear -HUW HW2 HU0 Hk1; nia).
  assert (Hf1 : 1 <= f) by (clear -HU2 Hf Hlo Hk1; nia).
  assert (HN : 1 <= f * (W * W)) by (clear -Hf1 HW2; nia).
  destruct (sqrt_nearest_near _ HN) as (Hr0 & Hr1 & Hr2).
  set (r := sqrt_nearest (f * (W * W))) in *. clearbody r.
  assert (Hlow : k * W <= r).
  { destruct (Z_lt_le_dec r (k * W)) as [Hc|]; [|lia]. exfalso.
    pose proof (nearest_below k f W r ltac:(lia) Hk1 ltac:(lia) Hr2) as Hd.
    assert (2 * (k * k - f) <= U) by (clear -Hf Hlo; nia).
    clear -Hd H HUW HW2 Hk1. nia. }
  assert (Hup : r < (k + 2) * W).
  { destruct (Z_lt_le_dec r ((k + 2) * W)) as [|Hc]; [lia|]. exfalso.
    pose proof (nearest_above (k + 2) f W r ltac:(lia) ltac:(lia) Hc Hr1) as Hd.
    assert (k + 2 <= (k + 2) * (k + 2) - f) by (clear -Hf HU Hhi Hk1; nia).
    clear -Hd H HW2 Hk1. nia. }
  assert (Hq : k <= r / W <= k + 1).
  { split.
    - apply Z.div_le_lower_bound; lia.
    - assert (r / W < k + 2); [|lia].
      apply Z.div_lt_upper_bound; lia. }
  split; [exact Hq|].
  intros Hsmall.
  assert (Hup2 : r < (k + 1) * W).
  { destruct (Z_lt_le_dec r ((k + 1) * W)) as [|Hc]; [lia|]. exfalso.
    pose proof (nearest_above (k + 1) f W r ltac:(lia) ltac:(lia) Hc Hr1) as Hd.
    assert (k + 1 <= 2 * ((k + 1) * (k + 1) - f)) by (clear -Hf HU Hsmall Hk1; nia).
    clear -Hd H HW2 Hk1. nia. }
  assert (r / W < k + 1); [|lia].
  apply Z.div_lt_upper_bound; lia.
Qed.

(** [int(math.sqrt(x))] for a positive float with exponent at most 51. *)
Lemma int_of_fsqrt m e :
  m <> 0 -> e <= 51 ->
  int_of_float (fsqrt {| neg := false; mant := m; expo := e |}) =
  sqrt_nearest (m * 2 ^ (52 + e mod 2)) / 2 ^ (26 - e / 2).
Proof.
  intros Hm He. unfold fsqrt, int_of_float. cbn [neg mant expo].
  destruct (Z.eqb_spec m 0) as [|_]; [contradiction|].
  pose proof (Z.div_mod e 2 ltac:(lia)) as Hdm.
  pose proof (Z.mod_pos_bound e 2 ltac:(lia)) as Hmod.
  destruct (Z.even e) eqn:Hpar; cbn [neg mant expo].
  - assert (Hz : e mod 2 = 0).
    { apply Z.even_spec in Hpar. destruct Hpar as [h ->].
      rewrite Z.mul_comm. apply Z.mod_mul. lia. }
    rewrite Hz, Z.add_0_r.
    destruct (Z.leb_spec 0 (e / 2 - 26)) as [?|_]; [lia|].
    do 2 f_equal. lia.
  - assert (Hz : e mod 2 = 1).
    { assert (Hodd : Z.odd e = true) by (rewrite <- Z.negb_even, Hpar; reflexivity).
      apply Z.odd_spec in Hodd. destruct Hodd as [h ->].
      rewrite Z.add_comm, Z.mul_comm, Z.mod_add by lia. reflexivity. }
    rewrite Hz. replace ((e - 1) / 2) with (e / 2).
    2:{ replace (e - 1) with (e / 2 * 2) by lia. now rewrite Z.div_mul by lia. }
    destruct (Z.leb_spec 0 (e / 2 - 26)) as [?|_]; [lia|].
    do 2 f_equal. lia.
Qed.

Lemma round_half_even_error a s :
  0 <= a -> 0 < s -> 2 * Z.abs (round_half_even a s * 2 ^ s - a) <= 2 ^ s.
Proof.
  intros Ha Hs. unfold round_half_even.
  assert (H2 : 2 ^ s = 2 * 2 ^ (s - 1)).
  { replace s with (Z.succ (s - 1)) at 1 by lia. apply Z.pow_succ_r. lia. }
  assert (Hh : 0 < 2 ^ (s - 1)) by (apply Z.pow_pos_nonneg; lia).
  pose proof (Z.div_mod a (2 ^ s) ltac:(lia)) as Hdm.
  pose proof (Z.mod_pos_bound a (2 ^ s) ltac:(lia)) as Hr.
  set (q := a / 2 ^ s) in *. set (r := a mod 2 ^ s) in *.
  rewrite H2 in *. set (h := 2 ^ (s - 1)) in *. clearbody q r h.
  destruct (Z.ltb_spec r h); [lia|].
  destruct (Z.ltb_spec h r); [lia|].
  destruct (Z.even q); lia.
Qed.

(** [float(n)] for [n] of more than 53 bits: the value is [n] rounded to a
    multiple of [2^s], within half of [2^s]. *)
Lemma float_of_int_large n :
  2 ^ 53 <= n < 2 ^ 1023 ->
  let s := Z.log2 n - 52 in
  exists m e,
    float_of_int n = Returns {| neg := false; mant := m; expo := e |} /\
    m <> 0 /\ s <= e <= s + 1 /\
    2 * Z.abs (m * 2 ^ e - n) <= 2 ^ s.
Proof.
  intros [Hlo Hhi] s.
  assert (Hpos : 0 < n) by lia.
  assert (Hl : 53 <= Z.log2 n < 1023).
  { split; [apply Z.log2_le_pow2; lia|apply Z.log2_lt_pow2; lia]. }
  pose proof (round_half_even_error n s ltac:(lia) ltac:(lia)) as Herr.
  unfold float_of_int, bit_length, prec, emax.
  rewrite !Z.abs_eq by lia.
  destruct (Z.eqb_spec n 0) as [|_]; [lia|].
  replace (Z.log2 n + 1 - 53) with s by lia.
  destruct (Z.leb_spec s 0) as [|_]; [lia|].
  destruct (Z.ltb_spec n 0) as [|_]; [lia|].
  destruct (Z.eqb_spec (round_half_even n s) (2 ^ 53)) as [He|Hne].
  - destruct (Z.ltb_spec 971 (s + 1)) as [|_]; [lia|].
    exists (2 ^ (53 - 1)), (s + 1). split; [reflexivity|].
    split; [discriminate|]. split; [lia|].
    rewrite He in Herr. rewrite Z.pow_add_r by lia.
    replace (2 ^ (53 - 1) * (2 ^ s * 2 ^ 1)) with (2 ^ 53 * 2 ^ s)
      by (change (2 ^ 53) with (2 ^ (53 - 1) * 2 ^ 1); ring).
    exact Herr.
  - destruct (Z.ltb_spec 971 s) as [|_]; [lia|].
    exists (round_half_even n s), s. split; [reflexivity|].
    split; [|split; [lia|exact Herr]].
    intros Hz. rewrite Hz in Herr.
    assert (2 ^ s <= 2 ^ Z.log2 n) by (apply Z.pow_le_mono_r; lia).
    pose proof (Z.log2_spec n Hpos) as [Hn1 _].
    assert (2 * 2 ^ s <= 2 ^ Z.log2 n).
    { replace (Z.log2 n) with (Z.succ (Z.log2 n - 1)) by lia.
      rewrite Z.pow_succ_r by lia.
      assert (2 ^ s <= 2 ^ (Z.log2 n - 1)) by (apply Z.pow_le_mono_r; lia).
      lia. }
    lia.
Qed.

(** The integer square root of a number of [l + 1] bits. *)
Lemma sqrt_lower_bound n l :
  0 <= l -> 2 ^ l <= n ->
  2 ^ (l / 2) <= Z.sqrt n /\
  (l mod 2 = 1 -> 2 <= l / 2 -> 2 ^ (l / 2) + 1 <= Z.sqrt n).
Proof.
  intros Hl Hn.
  pose proof (Z.div_mod l 2 ltac:(lia)) as Hdm.
  pose proof (Z.mod_pos_bound l 2 ltac:(lia)) as Hmod.
  assert (Hh : 0 <= l / 2) by (apply Z.div_pos; lia).
  assert (HP : 0 < 2 ^ (l / 2)) by (apply Z.pow_pos_nonneg; lia).
  assert (HPP : 2 ^ (l / 2) * 2 ^ (l / 2) = 2 ^ (2 * (l / 2))).
  { rewrite <- Z.pow_add_r by lia. f_equal. lia. }
  split.
  - apply Z.sqrt_le_square; [lia|lia|].
    rewrite HPP. eapply Z.le_trans; [|exact Hn].
    apply Z.pow_le_mono_r; lia.
  - intros Hodd Hbig.
    apply Z.sqrt_le_square; [lia|lia|].
    assert (E : 2 ^ l = 2 * (2 ^ (l / 2) * 2 ^ (l / 2))).
    { rewrite HPP. replace l with (Z.succ (2 * (l / 2))) at 1 by lia.
      apply Z.pow_succ_r. lia. }
    assert (H4 : 4 <= 2 ^ (l / 2)).
    { change 4 with (2 ^ 2). apply Z.pow_le_mono_r; lia. }
    set (P := 2 ^ (l / 2)) in *. clearbody P. nia.
Qed.

(** Below [2^103] the float bound is the integer square root or one more,
    and one more only above [k * (k + 1)]. *)
Lemma int_sqrt_good n :
  1 <= n < safe_limit ->
  exists b, int_sqrt n = Returns b /\
    Z.sqrt n <= b <= Z.sqrt n + 1 /\
    (n <= Z.sqrt n * (Z.sqrt n + 1) -> b = Z.sqrt n).
Proof.
  intros [Hn Hlt]. unfold safe_limit in Hlt.
  assert (Hk1 : 1 <= Z.sqrt n).
  { apply Z.sqrt_le_square; lia. }
  unfold int_sqrt, math_sqrt.
  destruct (Z_lt_le_dec n (2 ^ 53)) as [Hsmall|Hbig].
  - (* exact conversion *)
    rewrite float_of_int_small by lia. cbn [mbind outcome_bind neg].
    assert (Hb : 0 <= Z.log2 n < 53).
    { split; [apply Z.log2_nonneg|]. apply Z.log2_lt_pow2; lia. }
    set (e := Z.log2 n - 52).
    replace (52 - Z.log2 n) with (- e) by lia.
    assert (He : -52 <= e <= 0) by lia. clearbody e.
    assert (Hpow : 0 < 2 ^ (- e)) by (apply Z.pow_pos_nonneg; lia).
    eexists. split; [reflexivity|].
    rewrite int_of_fsqrt by nia.
    pose proof (Z.div_mod e 2 ltac:(lia)) as Hdm.
    pose proof (Z.mod_pos_bound e 2 ltac:(lia)) as Hmod.
    rewrite <- Z.mul_assoc, <- Z.pow_add_r by lia.
    replace (- e + (52 + e mod 2)) with (2 * (26 - e / 2)) by lia.
    apply (rounded_root_bounds n n 0 (26 - e / 2)); lia.
  - (* rounded conversion *)
    assert (Hl : 53 <= Z.log2 n < 103).
    { split; [apply Z.log2_le_pow2; lia|apply Z.log2_lt_pow2; lia]. }
    destruct (float_of_int_large n) as (m & e & -> & Hm & He & Herr).
    { split; [lia|]. eapply Z.lt_le_trans; [exact Hlt|].
      apply Z.pow_le_mono_r; lia. }
    cbn [mbind outcome_bind neg].
    eexists. split; [reflexivity|].
    rewrite int_of_fsqrt by lia.
    set (s := Z.log2 n - 52) in *.
    assert (Hs : 1 <= s <= 50) by lia.
    pose proof (Z.div_mod e 2 ltac:(lia)) as Hdm.
    pose proof (Z.mod_pos_bound e 2 ltac:(lia)) as Hmod.
    replace (m * 2 ^ (52 + e mod 2)) with (m * 2 ^ e * 2 ^ (2 * (26 - e / 2))).
    2:{ rewrite <- Z.mul_assoc, <- Z.pow_add_r by lia. do 2 f_equal. lia. }
    pose proof (Z.log2_spec n ltac:(lia)) as [Hn1 _].
    destruct (sqrt_lower_bound n (Z.log2 n) ltac:(lia) Hn1) as [Hk Hk'].
    pose proof (Z.div_mod (Z.log2 n) 2 ltac:(lia)) as Hdml.
    pose proof (Z.mod_pos_bound (Z.log2 n) 2 ltac:(lia)) as Hmodl.
    set (h := Z.log2 n / 2) in *.
    assert (Hh : 26 <= h <= 51) by lia.
    assert (HP : 0 < 2 ^ h) by (apply Z.pow_pos_nonneg; lia).
    apply (rounded_root_bounds n (m * 2 ^ e) (2 ^ s) (26 - e / 2));
      [lia|exact Herr|lia| |].
    + (* U * W < 2 * k *)
      rewrite <- Z.pow_add_r by lia.
      destruct (Z.eq_dec (Z.log2 n mod 2) 0) as [Hev|Hod].
      * assert (2 ^ (s + (26 - e / 2)) <= 2 ^ h)
          by (apply Z.pow_le_mono_r; lia).
        lia.
      * assert (2 ^ (s + (26 - e / 2)) <= 2 ^ (h + 1))
          by (apply Z.pow_le_mono_r; lia).
        replace (h + 1) with (Z.succ h) in H by lia.
        rewrite Z.pow_succ_r in H by lia.
        specialize (Hk' ltac:(lia) ltac:(lia)). lia.
    + (* U <= k + 1 *)
      assert (2 ^ s <= 2 ^ h) by (apply Z.pow_le_mono_r; lia). lia.
Qed.

(** [float(n)] either returns a float of the sign of [n] or overflows. *)
Lemma float_of_int_cases n :
  (exists x, float_of_int n = Returns x /\ neg x = (n <? 0)) \/
  float_of_int n = Raises OverflowError.
Proof.
  unfold float_of_int.
  destruct (Z.abs n =? 0) eqn:Hz.
  - left. eexists. split; [reflexivity|]. cbn [neg].
    apply Z.eqb_eq in Hz. symmetry. apply Z.ltb_ge. lia.
  - destruct (bit_length (Z.abs n) - prec <=? 0).
    + left. eexists. split; reflexivity.
    + destruct (round_half_even _ _ =? 2 ^ prec);
        match goal with |- context [emax <? ?s] => destruct (emax <? s) end;
        (right; reflexivity) || (left; eexists; split; reflexivity).
Qed.

Lemma round_half_even_bounds a s :
  0 <= a -> 0 < s ->
  a / 2 ^ s <= round_half_even a s <= a / 2 ^ s + 1.
Proof.
  intros _ _. unfold round_half_even.
  repeat match goal with |- context [if ?c then _ else _] => destruct c end; lia.
Qed.

(** The conversion overflows exactly from [2^1024 - 2^970] on, the
    midpoint between the largest finite binary64 and [2^1024]. *)
Lemma float_of_int_overflow n :
  float_of_int n = Raises OverflowError <-> 2 ^ 1024 - 2 ^ 970 <= Z.abs n.
Proof.
  unfold float_of_int, bit_length, prec, emax.
  rewrite Z.abs_idemp.
  set (a := Z.abs n). assert (Ha : 0 <= a) by apply Z.abs_nonneg.
  clearbody a.
  assert (E971 : 2 ^ 971 = 2 ^ 970 * 2) by (vm_compute; reflexivity).
  assert (E1023 : 2 ^ 1023 = 2 ^ 970 * 9007199254740992)
    by (vm_compute; reflexivity).
  assert (E1024 : 2 ^ 1024 = 2 ^ 970 * 18014398509481984)
    by (vm_compute; reflexivity).
  assert (E53 : 2 ^ 53 = 9007199254740992) by reflexivity.
  assert (H970 : 0 < 2 ^ 970) by (apply Z.pow_pos_nonneg; lia).
  replace (971 - 1) with 970 by lia.
  rewrite E1024, E53.
  destruct (Z.eqb_spec a 0) as [->|Hnz].
  { split; [discriminate|]. intros Hc. exfalso. clear -Hc H970.
    set (H := 2 ^ 970) in *. clearbody H. lia. }
  assert (Hpos : 0 < a) by lia.
  destruct (Z.log2_spec a Hpos) as [Hl1 Hl2].
  set (l := Z.log2 a) in *.
  assert (Hl0 : 0 <= l) by apply Z.log2_nonneg.
  destruct (Z.leb_spec (l + 1 - 53) 0) as [Hs|Hs].
  { split; [discriminate|]. intros Hc. exfalso.
    assert (a < 2 ^ 53).
    { eapply Z.lt_le_trans; [exact Hl2|]. apply Z.pow_le_mono_r; lia. }
    rewrite E53 in *. clear -Hc H970 H.
    set (H' := 2 ^ 970) in *. clearbody H'. nia. }
  set (s := l + 1 - 53) in *.
  assert (Hps : 0 < 2 ^ s) by (apply Z.pow_pos_nonneg; lia).
  pose proof (round_half_even_bounds a s Ha Hs) as Hm.
  destruct (Z_lt_le_dec l 1023) as [Hsmall|Hbig].
  - (* fewer than 1024 bits: the exponent stays in range *)
    assert (Hlt : a < 2 ^ 1023).
    { eapply Z.lt_le_trans; [exact Hl2|]. apply Z.pow_le_mono_r; lia. }
    split.
    + destruct (round_half_even a s =? 9007199254740992).
      * destruct (Z.ltb_spec 971 (s + 1)); [lia|discriminate].
      * destruct (Z.ltb_spec 971 s); [lia|discriminate].
    + intros Hc. exfalso. rewrite E1023 in Hlt. clear -Hc Hlt H970.
      set (H := 2 ^ 970) in *. clearbody H. nia.
  - destruct (Z_lt_le_dec 1023 l) as [Hhuge|Hle].
    + (* more than 1024 bits *)
      split.
      * intros _.
        assert (2 ^ 1024 <= a).
        { eapply Z.le_trans; [|exact Hl1]. apply Z.pow_le_mono_r; lia. }
        rewrite E1024 in *. lia.
      * intros _.
        destruct (round_half_even a s =? 9007199254740992).
        -- destruct (Z.ltb_spec 971 (s + 1)); [reflexivity|lia].
        -- destruct (Z.ltb_spec 971 s); [reflexivity|lia].
    + (* exactly 1024 bits: decided by the rounding *)
      assert (Hl : l = 1023) by lia.
      assert (Hs971 : s = 971) by lia.
      rewrite Hs971 in *. clear Hs971.
      assert (Hlt : a < 2 ^ 1024).
      { eapply Z.lt_le_trans; [exact Hl2|]. apply Z.pow_le_mono_r; lia. }
      rewrite E1024 in Hlt.
      unfold round_half_even in *.
      replace (971 - 1) with 970 by lia.
      pose proof (Z.div_mod a (2 ^ 971) ltac:(lia)) as Hdm.
      pose proof (Z.mod_pos_bound a (2 ^ 971) ltac:(lia)) as Hr.
      set (q := a / 2 ^ 971) in *. set (r := a mod 2 ^ 971) in *.
      rewrite E971 in Hdm, Hr.
      clear Hm Hl1 Hl2 E971 E1023 E1024 E53 Hps.
      set (H := 2 ^ 970) in *. clearbody H q r.
      assert (F1 : q <= 9007199254740991).
      { destruct (Z_lt_le_dec 9007199254740991 q) as [Hc|]; [|lia].
        exfalso.
        assert (H * 2 * 9007199254740992 <= H * 2 * q)
          by (apply Z.mul_le_mono_nonneg_l; lia).
        lia. }
      assert (F2 : H * 18014398509481984 - H <= a ->
                   q = 9007199254740991 /\ H <= r).
      { intros Hc.
        assert (q = 9007199254740991); [|subst q; lia].
        destruct (Z_lt_le_dec q 9007199254740991) as [Hc'|]; [|lia].
        exfalso.
        assert (H * 2 * q <= H * 2 * 9007199254740990)
          by (apply Z.mul_le_mono_nonneg_l; lia).
        lia. }
      assert (F3 : q = 9007199254740991 -> H <= r ->
                   H * 18014398509481984 - H <= a).
      { intros -> Hr'. lia. }
      destruct (Z.ltb_spec r H) as [Hrh|Hrh].
      * destruct (Z.eqb_spec q 9007199254740992) as [?|_]; [lia|].
        cbn match. split; [discriminate|]. intros Hc. exfalso.
        apply F2 in Hc. lia.
      * destruct (Z.ltb_spec H r) as [Hrh'|Hrh'].
        -- destruct (Z.eqb_spec (q + 1) 9007199254740992) as [Hq1|Hq1].
           ++ cbn match. split; [intros _; apply F3; lia|reflexivity].
           ++ cbn match. split; [discriminate|]. intros Hc. exfalso.
              apply F2 in Hc. lia.
        -- assert (r = H) by lia. subst r.
           destruct (Z.even q) eqn:Hev.
           ++ destruct (Z.eqb_spec q 9007199254740992) as [?|_]; [lia|].
              cbn match. split; [discriminate|]. intros Hc. exfalso.
              apply F2 in Hc. destruct Hc as [-> _]. discriminate.
           ++ destruct (Z.eqb_spec (q + 1) 9007199254740992) as [Hq1|Hq1].
              ** cbn match. split; [intros _; apply F3; lia|reflexivity].
              ** cbn match. split; [discriminate|]. intros Hc. exfalso.
                 apply F2 in Hc. lia.
Qed.

End FloatSqrt.

(** The bound never consumes budget; it raises on negative and on huge
    arguments and returns otherwise. *)
Lemma int_sqrt_negative n :
  n < 0 ->
  int_sqrt n = Raises (if Z.abs n <? 2 ^ 1024 - 2 ^ 970 then ValueError
                       else OverflowError).
Proof.
  intros Hn. unfold int_sqrt, Float.math_sqrt.
  destruct (Z.ltb_spec (Z.abs n) (2 ^ 1024 - 2 ^ 970)) as [Hlt|Hge].
  - destruct (float_of_int_cases n) as [(x & -> & Hx)|Hov].
    + cbn [mbind outcome_bind]. rewrite Hx.
      destruct (Z.ltb_spec n 0); [reflexivity|lia].
    + apply float_of_int_overflow in Hov. lia.
  - apply float_of_int_overflow in Hge. rewrite Hge. reflexivity.
Qed.

Lemma int_sqrt_overflow n :
  2 ^ 1024 - 2 ^ 970 <= n -> int_sqrt n = Raises OverflowError.
Proof.
  intros Hn. unfold int_sqrt, Float.math_sqrt.
  assert (Hov : Float.float_of_int n = Raises OverflowError).
  { apply float_of_int_overflow.
    assert (0 < 2 ^ 1024 - 2 ^ 970) by (vm_compute; reflexivity). lia. }
  rewrite Hov. reflexivity.
Qed.

Lemma int_sqrt_returns n :
  0 <= n < 2 ^ 1024 - 2 ^ 970 -> exists b, int_sqrt n = Returns b.
Proof.
  intros [Hn Hlt]. unfold int_sqrt, Float.math_sqrt.
  destruct (float_of_int_cases n) as [(x & -> & Hx)|Hov].
  - cbn [mbind outcome_bind]. rewrite Hx.
    destruct (Z.ltb_spec n 0); [lia|]. eexists. reflexivity.
  - apply float_of_int_overflow in Hov. lia.
Qed.

(** ** Loops over a [range] *)

Lemma range_nil lo hi : hi <= lo -> range lo hi = [].
Proof. intros. unfold range. apply seqZ_nil. lia. Qed.

Lemma range_snoc lo hi : lo <= hi -> range lo (hi + 1) = range lo hi ++ [hi].
Proof.
  intros. unfold range.
  replace (hi + 1 - lo) with ((hi - lo) + 1) by lia.
  rewrite seqZ_app by lia.
  replace (lo + (hi - lo)) with hi by lia.
  reflexivity.
Qed.

Lemma elem_of_range lo hi k : k ∈ range lo hi <-> lo <= k < hi.
Proof. unfold range. rewrite elem_of_seqZ. lia. Qed.

(** Invariant rule for a [for] loop whose body is a pure state update. *)
Lemma fold_left_range_inv {A} (P : Z -> A -> Prop) (f : A -> Z -> A) lo hi a :
  lo <= hi ->
  P lo a ->
  (forall i a, lo <= i < hi -> P i a -> P (i + 1) (f a i)) ->
  P hi (fold_left f (range lo hi) a).
Proof.
  intros Hle H0 Hstep.
  assert (Hk : forall k : nat, lo + Z.of_nat k <= hi ->
            P (lo + Z.of_nat k) (fold_left f (range lo (lo + Z.of_nat k)) a)).
  { induction k as [|k IH]; intros Hb.
    - rewrite range_nil by lia. rewrite Z.add_0_r. exact H0.
    - replace (lo + Z.of_nat (S k)) with (lo + Z.of_nat k + 1) by lia.
      rewrite range_snoc by lia. rewrite fold_left_app. cbn [fold_left].
      apply Hstep; [lia|]. apply IH. lia. }
  specialize (Hk (Z.to_nat (hi - lo))).
  rewrite Z2Nat.id in Hk by lia.
  replace (lo + (hi - lo)) with hi in Hk by lia.
  apply Hk. lia.
Qed.

Lemma for_each_app {St} (body : Z -> St -> outcome St) l1 l2 st :
  for_each body (l1 ++ l2) st =
  (st' ← for_each body l1 st; for_each body l2 st').
Proof.
  revert st. induction l1 as [|i l1 IH]; intros st; [reflexivity|].
  cbn [for_each app]. destruct (body i st); cbn [mbind outcome_bind]; auto.
Qed.

(** Invariant rule for a [for] loop whose body may fail: if every
    iteration returns and re-establishes the invariant, so does the loop. *)
Lemma for_each_range_inv {St} (P : Z -> St -> Prop)
    (body : Z -> St -> outcome St) lo hi st :
  lo <= hi ->
  P lo st ->
  (forall i st, lo <= i < hi -> P i st ->
     exists st', body i st = Returns st' /\ P (i + 1) st') ->
  exists st', for_each body (range lo hi) st = Returns st' /\ P hi st'.
Proof.
  intros Hle H0 Hstep.
  assert (Hk : forall k : nat, lo + Z.of_nat k <= hi ->
            exists st', for_each body (range lo (lo + Z.of_nat k)) st = Returns st'
                        /\ P (lo + Z.of_nat k) st').
  { induction k as [|k IH]; intros Hb.
    - rewrite range_nil by lia. rewrite Z.add_0_r. exists st. split; auto.
    - destruct IH as (st1 & Hrun & HP); [lia|].
      destruct (Hstep (lo + Z.of_nat k) st1 ltac:(lia) HP) as (st2 & Hbody & HP2).
      exists st2.
      replace (lo + Z.of_nat (S k)) with (lo + Z.of_nat k + 1) by lia.
      rewrite range_snoc by lia. rewrite for_each_app, Hrun.
      cbn [mbind outcome_bind for_each]. rewrite Hbody. split; auto. }
  specialize (Hk (Z.to_nat (hi - lo))).
  rewrite Z2Nat.id in Hk by lia.
  replace (lo + (hi - lo)) with hi in Hk by lia.
  apply Hk. lia.
Qed.

(** ** [list.sort] *)

Lemma insert_sorted_perm x l : insert_sorted x l ≡ₚ x :: l.
Proof.
  induction l as [|y l IH]; [reflexivity|].
  cbn [insert_sorted]. destruct (x <=? y); [reflexivity|].
  rewrite IH. apply Permutation_swap.
Qed.

Lemma sort_perm l : sort l ≡ₚ l.
Proof.
  induction l as [|x l IH]; [reflexivity|].
  cbn [sort foldr]. rewrite insert_sorted_perm. now apply Permutation_skip.
Qed.

Lemma insert_sorted_sorted x l :
  StronglySorted Z.le l -> StronglySorted Z.le (insert_sorted x l).
Proof.
  induction 1 as [|y l Hl IH Hy]; cbn [insert_sorted].
  - repeat constructor.
  - destruct (Z.leb_spec x y).
    + constructor; [constructor; assumption|].
      constructor; [assumption|].
      eapply Forall_impl; [exact Hy|]. intros z Hz. cbn in Hz. lia.
    + constructor; [assumption|].
      rewrite insert_sorted_perm. constructor; [lia|assumption].
Qed.

Lemma sort_sorted l : StronglySorted Z.le (sort l).
Proof.
  induction l as [|x l IH]; [constructor|].
  cbn [sort foldr]. now apply insert_sorted_sorted.
Qed.

Lemma elem_of_sort x l : x ∈ sort l <-> x ∈ l.
Proof. now rewrite sort_perm. Qed.

Lemma NoDup_sort l : NoDup (sort l) <-> NoDup l.
Proof. now rewrite sort_perm. Qed.


(** ** [find_divisors]: what the loop collects *)

Lemma find_divisors_unfold n :
  find_divisors n = (bound ← int_sqrt n; Returns (sort (divisors_loop n bound))).
Proof. reflexivity. Qed.

Lemma mod0_div n i : 0 < i -> n mod i = 0 -> n = i * (n / i).
Proof. intros Hi Hm. apply Z.div_exact; lia. Qed.

Lemma elem_of_divisors_body n acc i x :
  x ∈ divisors_body n acc i <->
  x ∈ acc \/ (n mod i = 0 /\ (x = i \/ x = n / i)).
Proof.
  unfold divisors_body.
  destruct (Z.eqb_spec (n mod i) 0) as [Hm|Hm].
  - destruct (Z.eqb_spec i (n / i)) as [He|He]; cbn [negb].
    + rewrite elem_of_app, list_elem_of_singleton. intuition congruence.
    + rewrite !elem_of_app, !list_elem_of_singleton. intuition congruence.
  - intuition congruence.
Qed.

(** Whatever the bound, the loop collects exactly the [i] and [n // i] of
    the candidates [i] in [1..bound] that divide [n]. *)
Lemma elem_of_divisors_loop n b x :
  x ∈ divisors_loop n b <->
  exists j, 1 <= j <= b /\ n mod j = 0 /\ (x = j \/ x = n / j).
Proof.
  unfold divisors_loop.
  destruct (Z_lt_le_dec b 0) as [Hb|Hb].
  { rewrite range_nil by lia. cbn [fold_left]. split.
    - intros H. inversion H.
    - intros (j & ? & _). lia. }
  assert (Hinv : forall x, x ∈ fold_left (divisors_body n) (range 1 (b + 1)) [] <->
            exists j, 1 <= j < b + 1 /\ n mod j = 0 /\ (x = j \/ x = n / j));
    [|rewrite Hinv; split; intros (j & Hj & Hd); exists j; (split; [lia|exact Hd])].
  clear x.
  apply (fold_left_range_inv
           (fun i acc => forall x, x ∈ acc <->
              exists j, 1 <= j < i /\ n mod j = 0 /\ (x = j \/ x = n / j))).
  - lia.
  - intros x. split; [intros H; inversion H|intros (j & ? & _); lia].
  - intros i acc Hi IH x. rewrite elem_of_divisors_body, IH. split.
    + intros [(j & Hj & Hd)|[Hm Hx]].
      * exists j. split; [lia|exact Hd].
      * exists i. split; [lia|]. split; assumption.
    + intros (j & Hj & Hm & Hx).
      destruct (Z.eq_dec j i) as [->|Hne].
      * right. split; assumption.
      * left. exists j. split; [lia|]. split; assumption.
Qed.

(** While the candidates stay below the square root, nothing is collected
    twice. *)
Lemma NoDup_divisors_loop n b : 0 < n -> b * b <= n -> NoDup (divisors_loop n b).
Proof.
  intros Hn Hbb. unfold divisors_loop.
  destruct (Z_lt_le_dec b 0) as [Hb|Hb].
  { rewrite range_nil by lia. constructor. }
  apply (fold_left_range_inv
           (fun i acc => NoDup acc /\ forall x, x ∈ acc ->
              exists j, 1 <= j < i /\ n mod j = 0 /\ (x = j \/ x = n / j))).
  - lia.
  - split; [constructor|]. intros x H. inversion H.
  - intros i acc Hi [Hnd Hacc]. split.
    + unfold divisors_body.
      destruct (Z.eqb_spec (n mod i) 0) as [Hm|Hm]; [|exact Hnd].
      assert (Hii : i * i <= n) by nia.
      pose proof (mod0_div n i ltac:(lia) Hm) as Hni.
      assert (Hfresh : forall x, x ∈ acc -> x <> i /\ x <> n / i).
      { intros x Hx. destruct (Hacc x Hx) as (j & Hj & Hmj & Hxj).
        pose proof (mod0_div n j ltac:(lia) Hmj) as Hnj.
        destruct Hxj as [->| ->]; split; nia. }
      assert (Hi1 : i ∉ acc) by (intros Hx; apply Hfresh in Hx; lia).
      assert (Hi2 : n / i ∉ acc) by (intros Hx; apply Hfresh in Hx; lia).
      destruct (Z.eqb_spec i (n / i)) as [He|He]; cbn [negb].
      * apply NoDup_app. split; [exact Hnd|]. split.
        -- intros x Hx Hx'. apply list_elem_of_singleton in Hx'. subst x. auto.
        -- apply NoDup_singleton.
      * apply NoDup_app. split; [|split].
        -- apply NoDup_app. split; [exact Hnd|]. split.
           ++ intros x Hx Hx'. apply list_elem_of_singleton in Hx'. subst x. auto.
           ++ apply NoDup_singleton.
        -- intros x Hx Hx'. apply list_elem_of_singleton in Hx'. subst x.
           apply elem_of_app in Hx. destruct Hx as [Hx|Hx]; [auto|].
           apply list_elem_of_singleton in Hx. lia.
        -- apply NoDup_singleton.
    + intros x Hx. apply elem_of_divisors_body in Hx.
      destruct Hx as [Hx|[Hm Hx]].
      * destruct (Hacc x Hx) as (j & Hj & Hd). exists j. split; [lia|exact Hd].
      * exists i. split; [lia|]. split; assumption.
Qed.


(** With the exact square root as bound the loop finds every divisor. *)
Lemma divisors_loop_complete n d :
  0 < n -> 0 < d -> (d | n) -> d ∈ divisors_loop n (Z.sqrt n).
Proof.
  intros Hn Hd [e He].
  destruct (Z.sqrt_spec n ltac:(lia)) as [Hs1 Hs2]. unfold Z.succ in Hs2.
  set (s := Z.sqrt n) in *.
  assert (Hs0 : 0 <= s) by apply Z.sqrt_nonneg.
  assert (He0 : 0 < e) by nia.
  apply elem_of_divisors_loop.
  destruct (Z_le_gt_dec d s) as [Hds|Hds].
  - exists d. split; [lia|]. split; [|left; reflexivity].
    subst n. apply Z.mod_mul. lia.
  - exists e. split; [nia|]. split.
    + subst n. rewrite Z.mul_comm. apply Z.mod_mul. lia.
    + right. subst n. rewrite Z.mul_comm, Z.div_mul; lia.
Qed.

Lemma divisors_loop_sound n b d :
  0 < n -> d ∈ divisors_loop n b -> 0 < d /\ n mod d = 0.
Proof.
  intros Hn Hd. apply elem_of_divisors_loop in Hd.
  destruct Hd as (j & Hj & Hm & Hx).
  pose proof (mod0_div n j ltac:(lia) Hm) as Hnj.
  destruct Hx as [->| ->]; [split; [lia|exact Hm]|].
  assert (0 < n / j) by nia. split; [lia|].
  rewrite Hnj at 1. apply Z.mod_mul. lia.
Qed.

(** An extra candidate that does not divide [n] leaves the list as it
    is. *)
Lemma divisors_loop_extra n b :
  0 <= b -> n mod (b + 1) <> 0 ->
  divisors_loop n (b + 1) = divisors_loop n b.
Proof.
  intros Hb Hm. unfold divisors_loop. rewrite range_snoc by lia.
  rewrite fold_left_app. cbn [fold_left]. unfold divisors_body at 1.
  destruct (Z.eqb_spec (n mod (b + 1)) 0); [contradiction|reflexivity].
Qed.

Lemma not_divisible_above_pronic n :
  1 <= n -> Z.sqrt n * (Z.sqrt n + 1) < n -> n mod (Z.sqrt n + 1) <> 0.
Proof.
  intros Hn Hp.
  destruct (Z.sqrt_spec n ltac:(lia)) as [_ Hhi]. unfold Z.succ in Hhi.
  pose proof (Z.sqrt_nonneg n) as Hk.
  set (k := Z.sqrt n) in *.
  rewrite <- (Z.mod_unique n (k + 1) k (n - k * (k + 1))); lia.
Qed.

(** Below [safe_limit] the loop builds the same list as with the exact
    integer square root as bound. *)
Lemma find_divisors_safe n :
  1 <= n < safe_limit ->
  find_divisors n = Returns (sort (divisors_loop n (Z.sqrt n))).
Proof.
  intros Hn. rewrite find_divisors_unfold.
  destruct (int_sqrt_good n Hn) as (b & -> & Hb & Hsmall).
  cbn [mbind outcome_bind]. do 2 f_equal.
  destruct (Z_le_gt_dec n (Z.sqrt n * (Z.sqrt n + 1))) as [Hle|Hgt].
  - now rewrite (Hsmall Hle).
  - destruct (Z.eq_dec b (Z.sqrt n)) as [->|Hne]; [reflexivity|].
    replace b with (Z.sqrt n + 1) by lia.
    apply divisors_loop_extra; [apply Z.sqrt_nonneg|].
    apply not_divisible_above_pronic; lia.
Qed.

Lemma find_divisors_exact n :
  1 <= n < safe_limit ->
  find_divisors n = Returns (sort (divisors_loop n (Z.sqrt n))) /\
  divisor_list n (sort (divisors_loop n (Z.sqrt n))).
Proof.
  intros [Hn Hlt]. split; [now apply find_divisors_safe|].
  split; [|split; [|split]].
  - intros d Hd. rewrite elem_of_sort in Hd.
    apply divisors_loop_sound in Hd; [exact Hd|lia].
  - intros d Hd Hdiv. apply elem_of_sort. apply divisors_loop_complete; auto; lia.
  - apply sort_sorted.
  - apply NoDup_sort. apply NoDup_divisors_loop; [lia|].
    apply Z.sqrt_spec. lia.
Qed.

(** ** [find_prime_factors]: the loop invariant *)

Lemma find_prime_factors_unfold fuel n :
  find_prime_factors fuel n =
  (bound ← int_sqrt n; st ← factor_loop fuel n bound; Returns (add_remaining st)).
Proof. reflexivity. Qed.

Lemma no_small_divisor_prime i m :
  2 <= i -> (i | m) -> (forall j, 2 <= j < i -> ~ (j | m)) -> Z.prime i.
Proof.
  intros Hi Him Hsmall. split; [lia|].
  intros j Hj Hji. apply (Hsmall j); [lia|].
  eapply Z.divide_trans; eassumption.
Qed.

(** A number above 1 with no divisor in [2..b], where [(b+1)^2] exceeds
    it, is prime. *)
Lemma no_divisor_to_sqrt_prime b m :
  1 < m -> 0 <= b -> m < (b + 1) * (b + 1) ->
  (forall j, 2 <= j <= b -> ~ (j | m)) -> Z.prime m.
Proof.
  intros Hm Hb Hlt Hsmall. split; [lia|].
  intros d Hd [e He].
  assert (He1 : 1 < e) by nia.
  assert (Hdb : b < d).
  { destruct (Z_lt_le_dec b d); [assumption|]. exfalso.
    apply (Hsmall d); [lia|]. exists e. exact He. }
  assert (Heb : b < e).
  { destruct (Z_lt_le_dec b e); [assumption|]. exfalso.
    apply (Hsmall e); [lia|]. exists d. lia. }
  nia.
Qed.

(** One pass of the inner loop body keeps the invariant at [i]. *)
Lemma factor_inv_divide n0 i pf m :
  2 <= i -> m mod i = 0 ->
  factor_inv n0 i (pf, m) -> factor_inv n0 i ({[ i ]} ∪ pf, m / i).
Proof.
  intros Hi Hm (Hm1 & Hmn & Hpf & Hall & Hsmall).
  pose proof (mod0_div m i ltac:(lia) Hm) as Hmi.
  assert (Him : (i | m)) by (exists (m / i); lia).
  assert (Hprime : Z.prime i) by (eapply no_small_divisor_prime; eauto).
  assert (Hq : (m / i | m)) by (exists i; lia).
  unfold factor_inv. split; [nia|]. split; [|split; [|split]].
  - eapply Z.divide_trans; eassumption.
  - intros p Hp. apply elem_of_union in Hp. destruct Hp as [Hp|Hp].
    + apply elem_of_singleton in Hp. subst p. split; [assumption|].
      eapply Z.divide_trans; eassumption.
    + auto.
  - intros p Hp Hpn. destruct (Hall p Hp Hpn) as [Hin|Hpm].
    + left. apply elem_of_union. right. exact Hin.
    + rewrite Hmi in Hpm. apply Z.divide_prime_mul in Hpm; [|assumption].
      destruct Hpm as [Hpi|Hpq]; [|right; exact Hpq].
      left. apply elem_of_union. left. apply elem_of_singleton.
      apply Z.divide_prime_prime; assumption.
  - intros j Hj Hjq. apply (Hsmall j Hj).
    eapply Z.divide_trans; eassumption.
Qed.

(** The inner loop: with a budget above [log2 m] it returns, keeps the
    invariant at [i], and leaves a value that [i] no longer divides. *)
Lemma while_divides_inv n0 fuel i pf m :
  2 <= i -> m < 2 ^ Z.of_nat fuel ->
  factor_inv n0 i (pf, m) ->
  exists pf' m', while_divides fuel i (pf, m) = Returns (pf', m') /\
    factor_inv n0 i (pf', m') /\ m' <= m /\ m' mod i <> 0.
Proof.
  intros Hi. revert pf m.
  induction fuel as [|fuel IH]; intros pf m Hlt Hinv.
  - exfalso. destruct Hinv as (Hm1 & _). cbn in Hlt. lia.
  - cbn [while_divides].
    destruct (Z.eqb_spec (m mod i) 0) as [Hm|Hm].
    + pose proof Hinv as (Hm1 & _).
      pose proof (mod0_div m i ltac:(lia) Hm) as Hmi.
      assert (Hq0 : 0 < m / i) by nia.
      assert (Hq : m / i < 2 ^ Z.of_nat fuel).
      { rewrite Nat2Z.inj_succ, Z.pow_succ_r in Hlt by lia. nia. }
      destruct (IH _ _ Hq (factor_inv_divide _ _ _ _ Hi Hm Hinv))
        as (pf' & m' & Hrun & Hinv' & Hle & Hnd).
      exists pf', m'. split; [exact Hrun|]. split; [exact Hinv'|].
      split; [nia|exact Hnd].
    + exists pf, m. split; [reflexivity|]. split; [exact Hinv|].
      split; [lia|exact Hm].
Qed.

(** The outer loop up to any bound: it returns and has tried every
    candidate. *)
Lemma factor_loop_inv fuel n b :
  1 <= n < 2 ^ Z.of_nat fuel -> 1 <= b ->
  exists st, factor_loop fuel n b = Returns st /\ factor_inv n (b + 1) st.
Proof.
  intros [Hn Hlt] Hb. unfold factor_loop.
  apply (for_each_range_inv (fun i st => factor_inv n i st)).
  - lia.
  - unfold factor_inv. split; [lia|]. split; [apply Z.divide_refl|].
    split; [|split].
    + intros p Hp. apply elem_of_empty in Hp. contradiction.
    + intros p _ Hpn. right. exact Hpn.
    + intros j Hj. lia.
  - intros i [pf m] Hi Hinv.
    assert (Hm : m < 2 ^ Z.of_nat fuel).
    { destruct Hinv as (Hm1 & Hmn & _).
      apply Z.divide_pos_le in Hmn; lia. }
    destruct (while_divides_inv n fuel i pf m ltac:(lia) Hm Hinv)
      as (pf' & m' & Hrun & Hinv' & Hle & Hnd).
    exists (pf', m'). split; [exact Hrun|].
    destruct Hinv' as (H1 & H2 & H3 & H4 & H5).
    unfold factor_inv. do 4 (split; [assumption|]).
    intros j Hj Hjm. destruct (Z.eq_dec j i) as [->|Hne].
      * apply Hnd. apply Z.mod_divide; [lia|assumption].
      * apply (H5 j); [lia|assumption].
Qed.

(** Once every candidate below the square root of the working value has
    been tried, the final step yields exactly the primes of [n]. *)
Lemma add_remaining_correct n i pf m :
  1 <= n -> 1 <= i -> m < i * i ->
  factor_inv n i (pf, m) -> prime_factor_set n (add_remaining (pf, m)).
Proof.
  intros Hn Hi Hlt (Hm1 & Hmn & Hpf & Hall & Hsmall). unfold add_remaining.
  destruct (Z.ltb_spec 1 m) as [Hm|Hm].
  - assert (Hprime : Z.prime m).
    { apply (no_divisor_to_sqrt_prime (i - 1)); [lia|lia|nia|].
      intros j Hj. apply Hsmall. lia. }
    intros p. rewrite elem_of_union, elem_of_singleton. split.
    + intros [->|Hp]; [split; assumption|auto].
    + intros [Hp Hpn]. destruct (Hall p Hp Hpn) as [Hin|Hpm]; [right; exact Hin|].
      left. apply Z.divide_prime_prime; assumption.
  - assert (m = 1) by lia. subst m.
    intros p. split; [auto|].
    intros [Hp Hpn]. destruct (Hall p Hp Hpn) as [Hin|Hp1]; [exact Hin|].
    exfalso. destruct Hp as [Hp1' _].
    apply Z.divide_1_r_nonneg in Hp1; lia.
Qed.

(** For any bound at least the integer square root, the function body
    computes the set of primes of [n]. *)
Lemma factor_loop_correct fuel n b :
  1 <= n < 2 ^ Z.of_nat fuel -> Z.sqrt n <= b ->
  exists st, factor_loop fuel n b = Returns st /\
             prime_factor_set n (add_remaining st).
Proof.
  intros Hn Hb.
  destruct (Z.sqrt_spec n ltac:(lia)) as [Hs1 Hs2]. unfold Z.succ in Hs2.
  assert (Hs0 : 1 <= Z.sqrt n).
  { destruct (Z_lt_le_dec (Z.sqrt n) 1); [|assumption].
    pose proof (Z.sqrt_nonneg n). nia. }
  destruct (factor_loop_inv fuel n b Hn ltac:(lia)) as ([pf m] & Hrun & Hinv).
  exists (pf, m). split; [exact Hrun|].
  assert (Hmle : m <= n).
  { destruct Hinv as (_ & Hmn & _). apply Z.divide_pos_le in Hmn; lia. }
  apply (add_remaining_correct n (b + 1)); [lia|lia|nia|exact Hinv].
Qed.

Lemma safe_limit_lt_fuel fuel n :
  n < safe_limit -> (103 <= fuel)%nat -> n < 2 ^ Z.of_nat fuel.
Proof.
  intros Hlt Hfuel. unfold safe_limit in Hlt.
  eapply Z.lt_le_trans; [exact Hlt|]. apply Z.pow_le_mono_r; lia.
Qed.

Lemma find_prime_factors_exact fuel n :
  1 <= n < safe_limit -> (103 <= fuel)%nat ->
  exists X, find_prime_factors fuel n = Returns X /\ prime_factor_set n X.
Proof.
  intros [Hn Hlt] Hfuel. rewrite find_prime_factors_unfold.
  destruct (int_sqrt_good n ltac:(lia)) as (b & -> & Hb & _).
  cbn [mbind outcome_bind].
  pose proof (safe_limit_lt_fuel fuel n Hlt Hfuel).
  destruct (factor_loop_correct fuel n b ltac:(lia) ltac:(lia))
    as (st & -> & Hset).
  cbn [mbind outcome_bind]. eexists. split; [reflexivity|exact Hset].
Qed.

(** ** Multiplicities and the product of prime powers *)

Lemma multiplicity_aux_spec fuel p n :
  2 <= p -> 1 <= n < 2 ^ Z.of_nat fuel ->
  0 <= multiplicity_aux fuel p n /\
  (p ^ multiplicity_aux fuel p n | n) /\
  ~ (p ^ (multiplicity_aux fuel p n + 1) | n).
Proof.
  intros Hp. revert n. induction fuel as [|fuel IH]; intros n [Hn Hlt].
  - cbn in Hlt. lia.
  - cbn [multiplicity_aux].
    destruct (Z.eqb_spec (n mod p) 0) as [Hm|Hm].
    + pose proof (mod0_div n p ltac:(lia) Hm) as Hnp.
      assert (Hq0 : 0 < n / p) by nia.
      assert (Hq : n / p < 2 ^ Z.of_nat fuel).
      { rewrite Nat2Z.inj_succ, Z.pow_succ_r in Hlt by lia. nia. }
      destruct (IH (n / p) ltac:(lia)) as (Hm0 & Hdiv & Hndiv).
      set (m := multiplicity_aux fuel p (n / p)) in *.
      set (q := n / p) in *. clearbody m q. subst n.
      split; [lia|]. split.
      * replace (1 + m) with (Z.succ m) by lia.
        rewrite Z.pow_succ_r by lia. now apply Z.mul_divide_mono_l.
      * intros Hc. apply Hndiv.
        replace (1 + m + 1) with (Z.succ (m + 1)) in Hc by lia.
        rewrite Z.pow_succ_r in Hc by lia.
        apply Z.mul_divide_cancel_l in Hc; [exact Hc|lia].
    + split; [lia|]. split.
      * rewrite Z.pow_0_r. apply Z.divide_1_l.
      * rewrite Z.add_0_l, Z.pow_1_r. intros Hc. apply Hm.
        apply Z.mod_divide; [lia|exact Hc].
Qed.

(** [multiplicity p n] is the exponent of the largest power of [p] that
    divides [n]. *)
Lemma multiplicity_spec p n :
  2 <= p -> 1 <= n ->
  0 <= multiplicity p n /\
  (p ^ multiplicity p n | n) /\ ~ (p ^ (multiplicity p n + 1) | n).
Proof.
  intros Hp Hn. apply multiplicity_aux_spec; [exact Hp|]. split; [exact Hn|].
  rewrite Nat2Z.inj_succ, Z2Nat.id by apply Z.log2_nonneg.
  apply Z.log2_spec. lia.
Qed.

Lemma pow_divide_mono p a b : 0 <= a <= b -> (p ^ a | p ^ b).
Proof.
  intros [Ha Hab]. exists (p ^ (b - a)).
  rewrite <- Z.pow_add_r by lia. f_equal. lia.
Qed.

Lemma multiplicity_unique p n a :
  2 <= p -> 1 <= n -> 0 <= a ->
  (p ^ a | n) -> ~ (p ^ (a + 1) | n) -> multiplicity p n = a.
Proof.
  intros Hp Hn Ha Hdiv Hndiv.
  destruct (multiplicity_spec p n Hp Hn) as (Hm0 & Hmd & Hmn).
  destruct (Z.lt_trichotomy (multiplicity p n) a) as [Hlt|[Heq|Hgt]].
  - exfalso. apply Hmn. eapply Z.divide_trans; [|exact Hdiv].
    apply pow_divide_mono. lia.
  - exact Heq.
  - exfalso. apply Hndiv. eapply Z.divide_trans; [|exact Hmd].
    apply pow_divide_mono. lia.
Qed.

(** Multiplying by a power of another prime does not change the
    multiplicity. *)
Lemma multiplicity_mul_coprime p q v n :
  Z.prime p -> Z.prime q -> p <> q -> 0 <= v -> 1 <= n ->
  multiplicity q (p ^ v * n) = multiplicity q n.
Proof.
  intros Hp Hq Hpq Hv Hn.
  pose proof (Z.prime_ge_2 _ Hp). pose proof (Z.prime_ge_2 _ Hq).
  assert (Hpv : 0 < p ^ v) by (apply Z.pow_pos_nonneg; lia).
  destruct (multiplicity_spec q n ltac:(lia) Hn) as (Hm0 & Hmd & Hmn).
  apply multiplicity_unique; [lia|nia|exact Hm0| |].
  - now apply Z.divide_mul_r.
  - intros Hc. apply Hmn. apply Z.gauss with (m := p ^ v); [exact Hc|].
    apply Z.coprime_pow_l; [lia|]. apply Z.coprime_pow_r; [lia|].
    apply Z.coprime_prime_l; [exact Hq|].
    intros Hd. apply Hpq. symmetry. now apply Z.divide_prime_prime.
Qed.

(** Every number above 1 has a prime divisor. *)
Lemma bounded_divisor_search n b :
  0 <= b ->
  (exists d, 1 < d < b /\ (d | n)) \/ (forall d, 1 < d < b -> ~ (d | n)).
Proof.
  intros Hb. pattern b. apply natlike_ind; [| |exact Hb].
  - right. intros d Hd. lia.
  - intros x Hx [(d & Hd & Hdn)|Hnone].
    + left. exists d. split; [lia|exact Hdn].
    + destruct (Z.eq_dec x 0) as [->|Hx0]; [right; intros d Hd; lia|].
      destruct (Z.BoolSpec_divide_nz x n Hx0) as [Hxn|Hxn].
      * destruct (Z_le_gt_dec x 1); [right; intros d Hd; lia|].
        left. exists x. split; [lia|exact Hxn].
      * right. intros d Hd. destruct (Z.eq_dec d x) as [->|Hne]; [exact Hxn|].
        apply Hnone. lia.
Qed.

Lemma exists_prime_divisor n : 1 < n -> exists p, Z.prime p /\ (p | n).
Proof.
  intros Hn. assert (H0 : 0 <= n) by lia. revert Hn.
  pattern n. apply Z_lt_induction; [|exact H0].
  clear n H0. intros n IH Hn.
  destruct (bounded_divisor_search n n ltac:(lia)) as [(d & Hd & Hdn)|Hnone].
  - destruct (IH d ltac:(lia) ltac:(lia)) as (p & Hp & Hpd).
    exists p. split; [exact Hp|]. eapply Z.divide_trans; eassumption.
  - exists n. split; [|apply Z.divide_refl]. split; [lia|exact Hnone].
Qed.

(** The product of the prime powers over any duplicate-free list of
    primes that contains every prime of [n] is [n]. *)
Lemma prime_power_list_product (L : list Z) :
  NoDup L -> forall n, 1 <= n ->
  (forall p, p ∈ L -> Z.prime p) ->
  (forall p, Z.prime p -> (p | n) -> p ∈ L) ->
  foldr (fun p acc => p ^ multiplicity p n * acc) 1 L = n.
Proof.
  induction 1 as [|p L Hp HL IH]; intros n Hn Hprimes Hall.
  - cbn [foldr]. destruct (Z.eq_dec n 1) as [->|Hne]; [reflexivity|].
    destruct (exists_prime_divisor n ltac:(lia)) as (q & Hq & Hqn).
    specialize (Hall q Hq Hqn). inversion Hall.
  - cbn [foldr].
    assert (Hpp : Z.prime p) by (apply Hprimes; left).
    pose proof (Z.prime_ge_2 _ Hpp) as Hp2.
    destruct (multiplicity_spec p n ltac:(lia) Hn) as (Hv0 & [n' Hn'] & Hvn).
    set (v := multiplicity p n) in *.
    assert (Hpv : 0 < p ^ v) by (apply Z.pow_pos_nonneg; lia).
    assert (Hn1 : 1 <= n') by nia.
    assert (Hpn' : ~ (p | n')).
    { intros [c Hc]. apply Hvn. exists c.
      replace (v + 1) with (Z.succ v) by lia. rewrite Z.pow_succ_r by lia.
      rewrite Hn', Hc. ring. }
    assert (Hext : foldr (fun q acc => q ^ multiplicity q n * acc) 1 L =
                   foldr (fun q acc => q ^ multiplicity q n' * acc) 1 L).
    { assert (HLp : forall q, q ∈ L -> Z.prime q /\ q <> p).
      { intros q Hq. split; [apply Hprimes; now right|].
        intros ->. contradiction. }
      clear -HLp Hpp Hn' Hv0 Hn1. induction L as [|q L IHL]; [reflexivity|].
      cbn [foldr]. rewrite IHL by (intros; apply HLp; now right).
      destruct (HLp q ltac:(left)) as [Hq Hqp].
      rewrite Hn', (Z.mul_comm n'), multiplicity_mul_coprime by auto.
      reflexivity. }
    rewrite Hext, (IH n' Hn1).
    + rewrite Hn'. ring.
    + intros q Hq. apply Hprimes. now right.
    + intros q Hq Hqn'.
      assert (Hqn : (q | n)) by (rewrite Hn'; now apply Z.divide_mul_l).
      specialize (Hall q Hq Hqn). apply elem_of_cons in Hall.
      destruct Hall as [->|Hin]; [contradiction|exact Hin].
Qed.

(** The set of primes of [n], each raised to its multiplicity,
    reconstructs [n]. *)
Lemma prime_power_product_correct n X :
  1 <= n -> prime_factor_set n X -> prime_power_product n X = n.
Proof.
  intros Hn HX. unfold prime_power_product, set_fold. cbn [compose].
  apply prime_power_list_product.
  - apply NoDup_elements.
  - exact Hn.
  - intros p Hp. apply elem_of_elements in Hp. now apply HX in Hp.
  - intros p Hp Hpn. apply elem_of_elements. apply HX. now split.
Qed.

(** ** The variant that recomputes the bound: correctness *)

Section Recompute.
Variable bound : Z -> outcome Z.
Variable N : Z.
Hypothesis bound_good :
  forall m, 1 <= m < N ->
    exists b, bound m = Returns b /\ Z.sqrt m <= b <= Z.sqrt m + 1.



End Recompute.

(** Two sets with the same specification are the same set. *)
Lemma prime_factor_set_unique n (X Y : gset Z) :
  prime_factor_set n X -> prime_factor_set n Y -> X = Y.
Proof.
  intros HX HY. apply set_eq. intros p. rewrite (HX p), (HY p). reflexivity.
Qed.

(** ** Returning at all: every input that converts to a float *)

Lemma factor_loop_returns fuel n b :
  1 <= n < 2 ^ Z.of_nat fuel ->
  exists st, factor_loop fuel n b = Returns st.
Proof.
  intros Hn. destruct (Z_lt_le_dec b 1) as [Hb|Hb].
  - unfold factor_loop. rewrite range_nil by lia. eexists. reflexivity.
  - destruct (factor_loop_inv fuel n b Hn Hb) as (st & Hrun & _).
    exists st. exact Hrun.
Qed.

Lemma find_divisors_returns n :
  0 <= n < 2 ^ 1024 - 2 ^ 970 -> exists l, find_divisors n = Returns l.
Proof.
  intros Hn. rewrite find_divisors_unfold.
  destruct (int_sqrt_returns n Hn) as (b & ->).
  cbn [mbind outcome_bind]. eexists. reflexivity.
Qed.

Lemma find_prime_factors_returns fuel n :
  1 <= n < 2 ^ 1024 - 2 ^ 970 -> n < 2 ^ Z.of_nat fuel ->
  exists X, find_prime_factors fuel n = Returns X.
Proof.
  intros Hn Hfuel. rewrite find_prime_factors_unfold.
  destruct (int_sqrt_returns n ltac:(lia)) as (b & ->).
  cbn [mbind outcome_bind].
  destruct (factor_loop_returns fuel n b ltac:(lia)) as (st & ->).
  cbn [mbind outcome_bind]. eexists. reflexivity.
Qed.

Lemma find_divisors_overflow n :
  2 ^ 1024 - 2 ^ 970 <= n -> find_divisors n = Raises OverflowError.
Proof.
  intros Hn. rewrite find_divisors_unfold, int_sqrt_overflow by exact Hn.
  reflexivity.
Qed.

Lemma find_prime_factors_overflow fuel n :
  2 ^ 1024 - 2 ^ 970 <= n -> find_prime_factors fuel n = Raises OverflowError.
Proof.
  intros Hn. rewrite find_prime_factors_unfold, int_sqrt_overflow by exact Hn.
  reflexivity.
Qed.

(** ** The bound is never negative *)


Lemma Returns_inj {A : Type} (a b : A) : Returns a = Returns b -> a = b.
Proof. now intros [= ->]. Qed.

(** ** More budget never changes an outcome *)

Lemma while_divides_mono f1 f2 i st r :
  (f1 <= f2)%nat -> while_divides f1 i st = r -> r <> OutOfFuel ->
  while_divides f2 i st = r.
Proof.
  revert f2 st. induction f1 as [|f1 IH]; intros f2 [pf m] Hle Hrun Hr.
  - cbn [while_divides] in Hrun.
    destruct f2; cbn [while_divides]; destruct (m mod i =? 0); congruence.
  - destruct f2 as [|f2]; [lia|]. cbn [while_divides] in *.
    destruct (m mod i =? 0); [|exact Hrun].
    apply IH; [lia|exact Hrun|exact Hr].
Qed.

Lemma for_each_mono f1 f2 l st r :
  (f1 <= f2)%nat -> for_each (while_divides f1) l st = r -> r <> OutOfFuel ->
  for_each (while_divides f2) l st = r.
Proof.
  intros Hle. revert st. induction l as [|i l IH]; intros st Hrun Hr.
  - exact Hrun.
  - cbn [for_each] in *.
    destruct (while_divides f1 i st) as [st'|e|] eqn:Hbody;
      cbn [mbind outcome_bind] in Hrun.
    + rewrite (while_divides_mono f1 f2 i st (Returns st') Hle Hbody)
        by discriminate.
      cbn [mbind outcome_bind]. now apply IH.
    + rewrite (while_divides_mono f1 f2 i st (Raises e) Hle Hbody)
        by discriminate.
      exact Hrun.
    + congruence.
Qed.

Lemma find_prime_factors_mono f1 f2 n r :
  (f1 <= f2)%nat -> find_prime_factors f1 n = r -> r <> OutOfFuel ->
  find_prime_factors f2 n = r.
Proof.
  intros Hle. rewrite !find_prime_factors_unfold.
  destruct (int_sqrt n) as [b|e|]; cbn [mbind outcome_bind]; [|auto|auto].
  unfold factor_loop.
  destruct (for_each (while_divides f1) (range 2 (b + 1)) (∅, n))
    as [st|e|] eqn:Hloop; cbn [mbind outcome_bind]; intros Hrun Hr.
  - rewrite (for_each_mono f1 f2 _ _ (Returns st) Hle Hloop) by discriminate.
    exact Hrun.
  - rewrite (for_each_mono f1 f2 _ _ (Raises e) Hle Hloop) by discriminate.
    exact Hrun.
  - congruence.
Qed.


(** ** Where the float bound goes wrong *)

(** A bound below the root loses a divisor. *)
Lemma bound_below_root_misses n b k :
  int_sqrt n = Returns b -> 0 <= b < k -> n = k * k ->
  ~ (exists l, find_divisors n = Returns l /\ divisor_list n l).
Proof.
  intros Hb Hbk Hn (l & Hrun & Hspec).
  rewrite find_divisors_unfold, Hb in Hrun. cbn [mbind outcome_bind] in Hrun.
  apply Returns_inj in Hrun. subst l.
  destruct Hspec as (_ & Hall & _).
  assert (Hin : k ∈ sort (divisors_loop n b)).
  { apply Hall; [lia|]. exists k. exact Hn. }
  apply elem_of_sort, elem_of_divisors_loop in Hin.
  destruct Hin as (j & Hj & Hm & Hx).
  pose proof (mod0_div _ j ltac:(lia) Hm) as Hnj.
  destruct Hx as [Hx|Hx]; [lia|].
  rewrite <- Hx in Hnj. nia.
Qed.

(** At [n = (2^53 + 1)^2] the float square root truncates to [2^53]: the
    loop stops before the candidate [2^53 + 1], and that divisor is not
    in the result. *)
Lemma find_divisors_misses_divisor :
  ~ (exists l, find_divisors ((2 ^ 53 + 1) ^ 2) = Returns l /\
               divisor_list ((2 ^ 53 + 1) ^ 2) l).
Proof.
  apply (bound_below_root_misses _ (2 ^ 53) (2 ^ 53 + 1)).
  - vm_compute. reflexivity.
  - vm_compute. split; [discriminate|reflexivity].
  - vm_compute. reflexivity.
Qed.


(** * The claims *)

(** ** C1: [find_divisors] returns the divisors, ascending, each once *)




(** ** C2: [find_prime_factors] returns the primes of [n] *)




(** ** C3: non-positive inputs *)

(** C3, as amended: for [n = 0] both functions silently return an empty
    result; for every negative [n] both functions raise the exception of
    [math.sqrt] ([ValueError], or [OverflowError] when [n <= -(2^1024 -
    2^970)]) and return nothing. *)
Theorem nonpositive_input_outcome n :
  (int_sqrt 0 = Returns 0 /\ range 1 (0 + 1) = [] /\ range 2 (0 + 1) = [] /\
   find_divisors 0 = Returns [] /\
   forall fuel, find_prime_factors fuel 0 = Returns ∅) /\
  (n < 0 ->
   let e := if Z.abs n <? 2 ^ 1024 - 2 ^ 970 then ValueError
            else OverflowError in
   find_divisors n = Raises e /\
   forall fuel, find_prime_factors fuel n = Raises e).
Proof.
  split.
  - do 4 (split; [reflexivity|]). intros fuel. reflexivity.
  - intros Hn e. split.
    + rewrite find_divisors_unfold, int_sqrt_negative by exact Hn. reflexivity.
    + intros fuel.
      rewrite find_prime_factors_unfold, int_sqrt_negative by exact Hn.
      reflexivity.
Qed.

Lemma nonpositive_input_outcome_witness :
  -7 < 0 /\
  find_divisors (-7) = Raises ValueError /\
  forall fuel, find_prime_factors fuel (-7) = Raises ValueError.
Proof.
  split; [lia|]. apply (proj2 (nonpositive_input_outcome (-7))). lia.
Defined.

(** C3 as stated fails at [n = -1]: both functions raise [ValueError]
    instead of returning a degenerate result. *)
Lemma negative_input_raises :
  find_divisors (-1) = Raises ValueError /\
  find_prime_factors 0 (-1) = Raises ValueError /\
  ~ (exists l, find_divisors (-1) = Returns l) /\
  ~ (exists fuel X, find_prime_factors fuel (-1) = Returns X).
Proof.
  split; [reflexivity|]. split; [reflexivity|]. split.
  - intros (l & Hl). discriminate.
  - intros (fuel & X & HX). discriminate.
Qed.

(** ** C4: recomputing the bound *)

(** In the source the bound is computed once, from the argument, before
    the loop starts. *)
Lemma bound_computed_once fuel n :
  find_prime_factors fuel n =
  (bound ← int_sqrt n; st ← factor_loop fuel n bound; Returns (add_remaining st)).
Proof. reflexivity. Qed.




(** ** C5: the input 1 *)

(** C5: [find_divisors 1] returns [[1]]; [find_prime_factors 1] returns
    the empty set, because the outer loop has no candidate and the
    working value is still 1 at the final test [n > 1]. *)
Theorem boundary_one :
  find_divisors 1 = Returns [1] /\
  (forall fuel, find_prime_factors fuel 1 = Returns ∅) /\
  (forall fuel, exists bound,
     int_sqrt 1 = Returns bound /\
     range 2 (bound + 1) = [] /\
     factor_loop fuel 1 bound = Returns (∅, 1) /\
     (1 <? 1) = false).
Proof.
  split; [reflexivity|]. split.
  - intros fuel. reflexivity.
  - intros fuel. exists 1. repeat split.
Qed.

(** ** C6: the perfect square 16 *)

(** C6: [find_divisors 16] returns [[1; 2; 4; 8; 16]], in which the root
    4 occurs once. *)
Theorem perfect_square_16 :
  find_divisors 16 = Returns [1; 2; 4; 8; 16] /\
  count_occ Z.eq_dec [1; 2; 4; 8; 16] 4 = 1%nat.
Proof. split; reflexivity. Qed.

(** ** C7: termination *)

(** The inner loop makes progress: dividing by [i >= 2] strictly
    decreases a positive working value. *)
Lemma division_decreases m i : 1 <= m -> 2 <= i -> m mod i = 0 -> 1 <= m / i < m.
Proof.
  intros Hm Hi Hmod. pose proof (mod0_div m i ltac:(lia) Hmod). nia.
Qed.

(** C7, as amended: for every [n >= 1] neither function loops
    indefinitely. Below [2^1024 - 2^970], where [n] converts to a float,
    both return a result (the inner loop with any budget above [log2 n]);
    from [2^1024 - 2^970] on both end by raising [OverflowError]. *)
Theorem find_functions_terminate n :
  1 <= n ->
  (n < 2 ^ 1024 - 2 ^ 970 ->
     (exists l, find_divisors n = Returns l) /\
     (forall fuel, n < 2 ^ Z.of_nat fuel ->
        exists X, find_prime_factors fuel n = Returns X)) /\
  (2 ^ 1024 - 2 ^ 970 <= n ->
     find_divisors n = Raises OverflowError /\
     (forall fuel, find_prime_factors fuel n = Raises OverflowError)).
Proof.
  intros Hn. split.
  - intros Hlt. split.
    + apply find_divisors_returns. lia.
    + intros fuel Hfuel. apply find_prime_factors_returns; [lia|exact Hfuel].
  - intros Hge. split.
    + now apply find_divisors_overflow.
    + intros fuel. now apply find_prime_factors_overflow.
Qed.

Lemma find_functions_terminate_witness :
  (exists l, find_divisors 60 = Returns l) /\
  (exists X, find_prime_factors 6 60 = Returns X).
Proof.
  destruct (find_functions_terminate 60 ltac:(lia)) as [Hsmall _].
  destruct Hsmall as [Hd Hp]; [vm_compute; reflexivity|].
  split; [exact Hd|]. apply Hp. vm_compute. reflexivity.
Defined.

(** C7 as stated fails at [n = 2^1024]: neither function returns a
    result; both raise [OverflowError]. *)
Lemma no_result_on_overflow :
  find_divisors (2 ^ 1024) = Raises OverflowError /\
  ~ (exists l, find_divisors (2 ^ 1024) = Returns l) /\
  ~ (exists fuel X, find_prime_factors fuel (2 ^ 1024) = Returns X).
Proof.
  assert (Hge : 2 ^ 1024 - 2 ^ 970 <= 2 ^ 1024) by (vm_compute; discriminate).
  split; [now apply find_divisors_overflow|]. split.
  - intros (l & Hl). rewrite find_divisors_overflow in Hl by exact Hge.
    discriminate.
  - intros (fuel & X & HX).
    rewrite find_prime_factors_overflow in HX by exact Hge. discriminate.
Qed.

(** ** C8: purity *)



(** ** C9: prime factors are divisors *)




(** ** C10: the length of the list of divisors *)




(** The number of iterations is [int(math.sqrt(n))], which from
    [2^52 + 2^27] on need not be [floor(sqrt(n))]. *)
Lemma iterations_at_exact_limit :
  exists bound, int_sqrt exact_limit = Returns bound /\
    length (range 1 (bound + 1)) = Z.to_nat (Z.sqrt exact_limit + 1).
Proof.
  exists (Z.sqrt exact_limit + 1). split; [apply int_sqrt_exact_limit|].
  unfold range. rewrite length_seqZ. reflexivity.
Qed.

(** * Further properties of the two functions *)

(** ** Results below [safe_limit], whatever the budget *)

Lemma find_divisors_spec n l :
  1 <= n < safe_limit -> find_divisors n = Returns l -> divisor_list n l.
Proof.
  intros Hn Hl. destruct (find_divisors_exact n Hn) as [Hrun Hs].
  rewrite Hrun in Hl. apply Returns_inj in Hl. now subst l.
Qed.

Lemma elem_of_find_divisors n l d :
  1 <= n < safe_limit -> find_divisors n = Returns l ->
  d ∈ l <-> 0 < d /\ (d | n).
Proof.
  intros Hn Hl. destruct (find_divisors_spec n l Hn Hl) as (Hs & Hc & _).
  split.
  - intros Hd. apply Hs in Hd. destruct Hd as [Hd Hm].
    split; [exact Hd|]. apply Z.mod_divide; [lia|exact Hm].
  - intros [Hd Hdiv]. now apply Hc.
Qed.

Lemma find_prime_factors_spec fuel n X :
  1 <= n < safe_limit -> find_prime_factors fuel n = Returns X ->
  prime_factor_set n X.
Proof.
  intros Hn HX.
  destruct (find_prime_factors_exact (Nat.max fuel 103) n Hn ltac:(lia))
    as (Y & HY & Hset).
  rewrite (find_prime_factors_mono fuel (Nat.max fuel 103) n (Returns X))
    in HY by (lia || assumption || discriminate).
  apply Returns_inj in HY. now subst Y.
Qed.

(** The ascending duplicate-free list of the divisors of [n] is unique. *)
Lemma divisor_list_unique n l1 l2 :
  divisor_list n l1 -> divisor_list n l2 -> l1 = l2.
Proof.
  intros (Hs1 & Hc1 & Hsort1 & Hnd1) (Hs2 & Hc2 & Hsort2 & Hnd2).
  apply (StronglySorted_unique Z.le); [assumption|assumption|].
  apply NoDup_Permutation; [assumption|assumption|].
  intros d. split; intros Hd.
  - apply Hs1 in Hd. destruct Hd as [Hd Hm]. apply Hc2; [exact Hd|].
    apply Z.mod_divide; [lia|exact Hm].
  - apply Hs2 in Hd. destruct Hd as [Hd Hm]. apply Hc1; [exact Hd|].
    apply Z.mod_divide; [lia|exact Hm].
Qed.

(** ** The bound of a positive argument is positive *)

(** [float(n)] of a positive [n] is a positive normal number. *)
Lemma float_of_int_normal n x :
  1 <= n -> Float.float_of_int n = Returns x ->
  Float.neg x = false /\ 2 ^ 52 <= Float.mant x /\ -52 <= Float.expo x.
Proof.
  intros Hn. unfold Float.float_of_int, Float.bit_length, Float.prec.
  rewrite !Z.abs_eq by lia.
  destruct (Z.eqb_spec n 0) as [|_]; [lia|].
  destruct (Z.ltb_spec n 0) as [|_]; [lia|].
  pose proof (Z.log2_spec n ltac:(lia)) as [Hl _].
  pose proof (Z.log2_nonneg n) as Hl0.
  set (l := Z.log2 n) in *.
  destruct (Z.leb_spec (l + 1 - 53) 0) as [Hs|Hs].
  - intros Hx. apply Returns_inj in Hx. subst x. cbn.
    split; [reflexivity|]. split; [|lia].
    replace (- (l + 1 - 53)) with (52 - l) by lia.
    replace 52 with (l + (52 - l)) at 1 by lia.
    rewrite Z.pow_add_r by lia.
    apply Z.mul_le_mono_nonneg_r; [apply Z.pow_nonneg; lia|exact Hl].
  - set (s := l + 1 - 53) in *.
    assert (Hm : 2 ^ 52 <= Float.round_half_even n s).
    { pose proof (round_half_even_bounds n s ltac:(lia) Hs) as [Hq _].
      eapply Z.le_trans; [|exact Hq].
      apply Z.div_le_lower_bound; [apply Z.pow_pos_nonneg; lia|].
      rewrite <- Z.pow_add_r by lia.
      replace (s + 52) with l by lia. exact Hl. }
    destruct (Float.round_half_even n s =? 2 ^ 53).
    + destruct (Float.emax <? s + 1); [discriminate|].
      intros Hx. apply Returns_inj in Hx. subst x. cbn.
      split; [reflexivity|]. split; lia.
    + destruct (Float.emax <? s); [discriminate|].
      intros Hx. apply Returns_inj in Hx. subst x. cbn [Float.neg Float.mant Float.expo].
      split; [reflexivity|]. split; [exact Hm|lia].
Qed.

Lemma sqrt_nearest_large N : 2 ^ 104 <= N -> 2 ^ 52 <= Float.sqrt_nearest N.
Proof.
  intros HN.
  assert (2 ^ 52 <= Z.sqrt N).
  { apply Z.sqrt_le_square; [lia|lia|].
    change (2 ^ 52 * 2 ^ 52) with (2 ^ 104). exact HN. }
  pose proof (sqrt_nearest_bounds N ltac:(lia)). lia.
Qed.

Lemma int_sqrt_pos n b : 1 <= n -> int_sqrt n = Returns b -> 1 <= b.
Proof.
  intros Hn. unfold int_sqrt, Float.math_sqrt.
  destruct (Float.float_of_int n) as [x| |] eqn:Hx; cbn [mbind outcome_bind];
    [|discriminate|discriminate].
  destruct (float_of_int_normal n x Hn Hx) as (Hneg & Hm & He).
  rewrite Hneg. cbn [mbind outcome_bind]. intros Hb.
  apply Returns_inj in Hb. subst b.
  unfold Float.fsqrt, Float.int_of_float.
  destruct (Z.eqb_spec (Float.mant x) 0) as [Hz|_].
  { exfalso. rewrite Hz in Hm. revert Hm. vm_compute. intros H. now apply H. }
  set (m := Float.mant x) in *. set (e := Float.expo x) in *.
  pose proof (Z.div_mod e 2 ltac:(lia)) as Hdm.
  pose proof (Z.mod_pos_bound e 2 ltac:(lia)) as Hmod.
  assert (Hroot : forall c, 52 <= c -> 2 ^ 52 <= Float.sqrt_nearest (m * 2 ^ c)).
  { intros c Hc. apply sqrt_nearest_large.
    change (2 ^ 104) with (2 ^ 52 * 2 ^ 52).
    apply Z.mul_le_mono_nonneg; try lia.
    apply Z.pow_le_mono_r; lia. }
  assert (Hfin : forall r t, 2 ^ 52 <= r -> -26 <= t ->
            1 <= (if 0 <=? t - 26 then r * 2 ^ (t - 26)
                  else r / 2 ^ (- (t - 26)))).
  { intros r t Hr Ht.
    destruct (Z.leb_spec 0 (t - 26)).
    - assert (0 < 2 ^ (t - 26)) by (apply Z.pow_pos_nonneg; lia).
      assert (0 < 2 ^ 52) by (apply Z.pow_pos_nonneg; lia). nia.
    - apply Z.div_le_lower_bound; [apply Z.pow_pos_nonneg; lia|].
      rewrite Z.mul_1_r. eapply Z.le_trans; [|exact Hr].
      apply Z.pow_le_mono_r; lia. }
  destruct (Z.even e) eqn:Hpar; cbn [Float.neg Float.mant Float.expo].
  - apply Hfin; [apply Hroot; lia|lia].
  - assert (Hodd : Z.odd e = true) by (rewrite <- Z.negb_even, Hpar; reflexivity).
    apply Z.odd_spec in Hodd. destruct Hodd as [h Hh].
    apply Hfin; [apply Hroot; lia|].
    rewrite Hh. replace (2 * h + 1 - 1) with (h * 2) by lia.
    rewrite Z.div_mul by lia. lia.
Qed.

(** ** What [find_divisors] guarantees wherever it returns *)

Lemma find_divisors_returns_inv n l :
  find_divisors n = Returns l ->
  exists b, int_sqrt n = Returns b /\ l = sort (divisors_loop n b).
Proof.
  rewrite find_divisors_unfold.
  destruct (int_sqrt n) as [b|e|]; cbn [mbind outcome_bind];
    [|discriminate|discriminate].
  intros Hl. apply Returns_inj in Hl. exists b. split; [reflexivity|now subst l].
Qed.

Lemma sorted_head a (l : list Z) :
  a ∈ l -> (forall x, x ∈ l -> a <= x) -> StronglySorted Z.le l ->
  head l = Some a.
Proof.
  intros Ha Hmin Hs. destruct l as [|x t]; [inversion Ha|]. cbn. f_equal.
  apply StronglySorted_cons in Hs. destruct Hs as [Hx _].
  apply elem_of_cons in Ha. destruct Ha as [->|Ha]; [reflexivity|].
  rewrite Forall_forall in Hx. specialize (Hx a Ha).
  specialize (Hmin x ltac:(left)). lia.
Qed.

Lemma sorted_last a (l : list Z) :
  a ∈ l -> (forall x, x ∈ l -> x <= a) -> StronglySorted Z.le l ->
  last l = Some a.
Proof.
  intros Ha Hmax Hs. induction l as [|x t IH]; [inversion Ha|].
  apply StronglySorted_cons in Hs. destruct Hs as [Hx Hs].
  rewrite Forall_forall in Hx.
  destruct t as [|y t]; [apply list_elem_of_singleton in Ha; now subst|].
  rewrite last_cons_cons. apply IH; [|intros z Hz; apply Hmax; now right|exact Hs].
  apply elem_of_cons in Ha. destruct Ha as [->|Ha]; [|exact Ha].
  assert (y = x); [|subst; left].
  specialize (Hx y ltac:(left)). specialize (Hmax y ltac:(right; left)). lia.
Qed.

(** X1. Whatever the accuracy of the float bound: wherever
    [find_divisors n] returns for [n >= 1], the list is ascending, holds
    only divisors of [n] between 1 and [n], starts with 1 and ends with
    [n]. *)
Theorem find_divisors_always_sound n l :
  1 <= n -> find_divisors n = Returns l ->
  StronglySorted Z.le l /\
  (forall d, d ∈ l -> 1 <= d <= n /\ n mod d = 0) /\
  head l = Some 1 /\ last l = Some n.
Proof.
  intros Hn Hl.
  destruct (find_divisors_returns_inv n l Hl) as (b & Hb & ->).
  pose proof (int_sqrt_pos n b Hn Hb) as Hb1.
  assert (Hdiv : forall d, d ∈ sort (divisors_loop n b) ->
            1 <= d <= n /\ n mod d = 0).
  { intros d Hd. rewrite elem_of_sort in Hd.
    apply divisors_loop_sound in Hd; [|lia]. destruct Hd as [Hd Hm].
    split; [|exact Hm]. split; [lia|].
    apply Z.divide_pos_le; [lia|]. apply Z.mod_divide; [lia|exact Hm]. }
  assert (Hone : forall x, (x = 1 \/ x = n) -> x ∈ sort (divisors_loop n b)).
  { intros x Hx. apply elem_of_sort, elem_of_divisors_loop. exists 1.
    split; [lia|]. split; [apply Z.mod_1_r|].
    rewrite Z.div_1_r. exact Hx. }
  split; [apply sort_sorted|]. split; [exact Hdiv|]. split.
  - apply sorted_head; [apply Hone; now left| |apply sort_sorted].
    intros x Hx. apply Hdiv in Hx. lia.
  - apply sorted_last; [apply Hone; now right| |apply sort_sorted].
    intros x Hx. apply Hdiv in Hx. lia.
Qed.

Lemma find_divisors_always_sound_witness :
  StronglySorted Z.le [1; 2; 3; 4; 6; 12] /\
  (forall d, d ∈ [1; 2; 3; 4; 6; 12] -> 1 <= d <= 12 /\ 12 mod d = 0) /\
  head [1; 2; 3; 4; 6; 12] = Some 1 /\ last [1; 2; 3; 4; 6; 12] = Some 12.
Proof.
  apply (find_divisors_always_sound 12); [lia|vm_compute; reflexivity].
Defined.

(** X2. Divisors come in pairs: wherever [find_divisors n] returns for
    [n >= 1], the list holds [n // d] with every [d] it holds, and
    [d * (n // d) = n]. *)
Theorem find_divisors_pairs n l d :
  1 <= n -> find_divisors n = Returns l -> d ∈ l ->
  n / d ∈ l /\ d * (n / d) = n.
Proof.
  intros Hn Hl Hd.
  destruct (find_divisors_returns_inv n l Hl) as (b & Hb & ->).
  rewrite elem_of_sort in *.
  apply elem_of_divisors_loop in Hd. destruct Hd as (j & Hj & Hm & Hx).
  pose proof (mod0_div n j ltac:(lia) Hm) as Hnj.
  assert (Hq : 0 < n / j) by nia.
  assert (Hqq : n / (n / j) = j).
  { set (q := n / j) in *. rewrite Hnj. apply Z.div_mul. lia. }
  destruct Hx as [->| ->].
  - split; [|lia]. apply elem_of_divisors_loop. exists j. auto.
  - rewrite Hqq. split; [|lia]. apply elem_of_divisors_loop. exists j. auto.
Qed.

Lemma find_divisors_pairs_witness :
  12 / 3 ∈ [1; 2; 3; 4; 6; 12] /\ 3 * (12 / 3) = 12.
Proof.
  apply (find_divisors_pairs 12 [1; 2; 3; 4; 6; 12] 3);
    [lia|vm_compute; reflexivity|].
  do 2 right. left.
Defined.

(** ** What [find_prime_factors] guarantees wherever it returns *)

Lemma while_divides_adds fuel i pf m pf' m' :
  while_divides fuel i (pf, m) = Returns (pf', m') ->
  forall p, p ∈ pf' -> p ∈ pf \/ p = i.
Proof.
  revert pf m. induction fuel as [|fuel IH]; intros pf m; cbn [while_divides];
    destruct (m mod i =? 0).
  - discriminate.
  - intros H. apply Returns_inj in H. injection H as <- <-. auto.
  - intros H p Hp. destruct (IH _ _ H p Hp) as [Hq|Hq]; [|now right].
    apply elem_of_union in Hq. destruct Hq as [Hq|Hq]; [|now left].
    apply elem_of_singleton in Hq. now right.
  - intros H. apply Returns_inj in H. injection H as <- <-. auto.
Qed.

Lemma for_each_adds fuel l pf m st :
  for_each (while_divides fuel) l (pf, m) = Returns st ->
  forall p, p ∈ st.1 -> p ∈ pf \/ p ∈ l.
Proof.
  revert pf m. induction l as [|i l IH]; intros pf m; cbn [for_each].
  - intros H. apply Returns_inj in H. subst st. auto.
  - destruct (while_divides fuel i (pf, m)) as [[pf1 m1]|e|] eqn:Hw;
      cbn [mbind outcome_bind]; [|discriminate|discriminate].
    intros H p Hp. destruct (IH _ _ H p Hp) as [Hq|Hq].
    + destruct (while_divides_adds _ _ _ _ _ _ Hw p Hq) as [Hr| ->];
        [now left|right; left].
    + right. now right.
Qed.

Lemma factor_loop_final fuel n b st :
  1 <= n -> 1 <= b -> factor_loop fuel n b = Returns st ->
  factor_inv n (b + 1) st /\ forall p, p ∈ st.1 -> 2 <= p <= b.
Proof.
  intros Hn Hb Hrun. split.
  - set (F := Nat.max fuel (S (Z.to_nat (Z.log2 n)))).
    assert (HF : n < 2 ^ Z.of_nat F).
    { apply Z.lt_le_trans with (2 ^ Z.of_nat (S (Z.to_nat (Z.log2 n)))).
      - rewrite Nat2Z.inj_succ, Z2Nat.id by apply Z.log2_nonneg.
        apply Z.log2_spec. lia.
      - apply Z.pow_le_mono_r; lia. }
    destruct (factor_loop_inv F n b ltac:(lia) Hb) as (st' & Hrun' & Hinv).
    unfold factor_loop in *.
    apply (for_each_mono fuel F) in Hrun; [|lia|discriminate].
    rewrite Hrun in Hrun'. apply Returns_inj in Hrun'. now subst st'.
  - intros p Hp. unfold factor_loop in Hrun.
    destruct (for_each_adds _ _ _ _ _ Hrun p Hp) as [Hq|Hq].
    + apply elem_of_empty in Hq. contradiction.
    + apply elem_of_range in Hq. lia.
Qed.

Lemma find_prime_factors_returns_inv fuel n X :
  find_prime_factors fuel n = Returns X ->
  exists b st, int_sqrt n = Returns b /\ factor_loop fuel n b = Returns st /\
               X = add_remaining st.
Proof.
  rewrite find_prime_factors_unfold.
  destruct (int_sqrt n) as [b|e|] eqn:Hb; cbn [mbind outcome_bind];
    [|discriminate|discriminate].
  destruct (factor_loop fuel n b) as [st|e|] eqn:Hst; cbn [mbind outcome_bind];
    [|discriminate|discriminate].
  intros H. apply Returns_inj in H. exists b, st.
  split; [reflexivity|]. split; [exact Hst|]. now subst X.
Qed.

(** X3. Whatever the accuracy of the float bound: wherever
    [find_prime_factors n] returns for [n >= 1], with [b] the loop bound
    [int(math.sqrt(n))], every element is at least 2 and divides [n], the
    elements up to [b] are exactly the primes up to [b] dividing [n], at
    most one element exceeds [b] (the remaining value added after the
    loop), and the set is not empty when [n >= 2]. *)
Theorem find_prime_factors_always_sound fuel n X :
  1 <= n -> find_prime_factors fuel n = Returns X ->
  exists b, int_sqrt n = Returns b /\
    (forall p, p ∈ X -> 2 <= p /\ (p | n)) /\
    (forall p, p <= b -> p ∈ X <-> Z.prime p /\ (p | n)) /\
    (forall p q, p ∈ X -> q ∈ X -> b < p -> b < q -> p = q) /\
    (2 <= n -> X <> ∅).
Proof.
  intros Hn Hrun.
  destruct (find_prime_factors_returns_inv _ _ _ Hrun)
    as (b & [pf m] & Hb & Hloop & ->).
  pose proof (int_sqrt_pos n b Hn Hb) as Hb1.
  destruct (factor_loop_final _ _ _ _ Hn Hb1 Hloop) as [Hinv Hlow].
  cbn [fst] in Hlow.
  destruct Hinv as (Hm1 & Hmn & Hpf & Hcov & Hnd).
  assert (Hmb : 1 < m -> b < m).
  { intros Hm. destruct (Z_lt_le_dec b m) as [|Hle]; [assumption|].
    exfalso. apply (Hnd m); [lia|apply Z.divide_refl]. }
  assert (Hin : forall p, p ∈ add_remaining (pf, m) <->
                          p ∈ pf \/ (1 < m /\ p = m)).
  { intros p. cbn [add_remaining]. destruct (1 <? m) eqn:E.
    - apply Z.ltb_lt in E. rewrite elem_of_union, elem_of_singleton.
      split; intros [H|H]; auto. destruct H as [_ ->]. auto.
    - apply Z.ltb_ge in E. split; [auto|]. intros [H|H]; [auto|lia]. }
  exists b. split; [exact Hb|]. split; [|split; [|split]].
  - intros p Hp. apply Hin in Hp. destruct Hp as [Hp|[Hm ->]].
    + split; [apply Hlow, Hp|apply Hpf, Hp].
    + split; [lia|exact Hmn].
  - intros p Hpb. rewrite Hin. split.
    + intros [Hp|[Hm ->]]; [apply Hpf, Hp|]. apply Hmb in Hm. lia.
    + intros [Hp Hd]. left. destruct (Hcov p Hp Hd) as [|Hpm]; [assumption|].
      exfalso. apply (Hnd p); [|exact Hpm]. apply Z.prime_ge_2 in Hp. lia.
  - intros p q Hp Hq Hbp Hbq. apply Hin in Hp, Hq.
    destruct Hp as [Hp|[_ ->]]; [apply Hlow in Hp; lia|].
    destruct Hq as [Hq|[_ ->]]; [apply Hlow in Hq; lia|]. reflexivity.
  - intros Hn2 HX.
    destruct (exists_prime_divisor n ltac:(lia)) as (p & Hp & Hd).
    assert (Hm : 1 < m \/ m = 1) by lia. destruct Hm as [Hm| ->].
    + apply (not_elem_of_empty (C := gset Z) m). rewrite <- HX.
      apply Hin. right. auto.
    + destruct (Hcov p Hp Hd) as [Hq|Hq].
      * apply (not_elem_of_empty (C := gset Z) p). rewrite <- HX.
        apply Hin. now left.
      * apply Z.prime_ge_2 in Hp. apply Z.divide_1_r_nonneg in Hq; lia.
Qed.

Lemma find_prime_factors_always_sound_witness :
  exists b, int_sqrt 60 = Returns b /\
    (forall p, p ∈ ({[ 2; 3; 5 ]} : gset Z) -> 2 <= p /\ (p | 60)) /\
    (forall p, p <= b ->
       p ∈ ({[ 2; 3; 5 ]} : gset Z) <-> Z.prime p /\ (p | 60)) /\
    (forall p q, p ∈ ({[ 2; 3; 5 ]} : gset Z) ->
       q ∈ ({[ 2; 3; 5 ]} : gset Z) -> b < p -> b < q -> p = q) /\
    (2 <= 60 -> ({[ 2; 3; 5 ]} : gset Z) <> ∅).
Proof.
  apply (find_prime_factors_always_sound 6 60);
    [lia|vm_compute; reflexivity].
Defined.

(** ** The inner loop and the multiplicity *)

Lemma multiplicity_step i m :
  2 <= i -> 1 <= m -> m mod i = 0 ->
  1 <= m / i /\ multiplicity i m = 1 + multiplicity i (m / i).
Proof.
  intros Hi Hm Hmod. pose proof (mod0_div m i ltac:(lia) Hmod) as Hmi.
  assert (Hq : 1 <= m / i) by nia. split; [exact Hq|].
  destruct (multiplicity_spec i (m / i) Hi Hq) as (Hv & Hd & Hnd).
  set (v := multiplicity i (m / i)) in *. set (q := m / i) in *.
  apply multiplicity_unique; [lia|lia|lia| |].
  - replace (1 + v) with (Z.succ v) by lia. rewrite Z.pow_succ_r by lia.
    rewrite Hmi. now apply Z.mul_divide_mono_l.
  - replace (1 + v + 1) with (Z.succ (v + 1)) by lia.
    rewrite Z.pow_succ_r by lia. rewrite Hmi.
    rewrite Z.mul_divide_cancel_l by lia. exact Hnd.
Qed.

Lemma multiplicity_zero i m :
  2 <= i -> 1 <= m -> m mod i <> 0 -> multiplicity i m = 0.
Proof.
  intros Hi Hm Hmod. apply multiplicity_unique; [lia|lia|lia| |].
  - rewrite Z.pow_0_r. apply Z.divide_1_l.
  - cbn [Z.add]. rewrite Z.pow_1_r. intros Hd. apply Hmod.
    apply Z.mod_divide; [lia|exact Hd].
Qed.

Lemma while_divides_multiplicity fuel i pf m :
  2 <= i -> 1 <= m ->
  while_divides fuel i (pf, m) =
  if multiplicity i m <=? Z.of_nat fuel then
    Returns (if multiplicity i m =? 0 then pf else {[ i ]} ∪ pf,
             m / i ^ multiplicity i m)
  else OutOfFuel.
Proof.
  intros Hi. revert pf m. induction fuel as [|fuel IH]; intros pf m Hm.
  - cbn [while_divides]. destruct (m mod i =? 0) eqn:E.
    + apply Z.eqb_eq in E.
      destruct (multiplicity_step i m Hi Hm E) as [Hq ->].
      destruct (multiplicity_spec i (m / i) Hi Hq) as (Hv & _).
      destruct (Z.leb_spec (1 + multiplicity i (m / i)) (Z.of_nat 0));
        [lia|reflexivity].
    + apply Z.eqb_neq in E. rewrite (multiplicity_zero i m Hi Hm E).
      cbn. now rewrite Z.div_1_r.
  - cbn [while_divides]. destruct (m mod i =? 0) eqn:E.
    + apply Z.eqb_eq in E.
      destruct (multiplicity_step i m Hi Hm E) as [Hq ->].
      destruct (multiplicity_spec i (m / i) Hi Hq) as (Hv & _).
      rewrite (IH _ _ Hq). set (v := multiplicity i (m / i)) in *.
      destruct (Z.leb_spec v (Z.of_nat fuel)),
               (Z.leb_spec (1 + v) (Z.of_nat (S fuel))); try lia;
        [|reflexivity].
      f_equal. f_equal.
      * destruct (Z.eqb_spec (1 + v) 0); [lia|].
        destruct (v =? 0); [reflexivity|].
        apply set_eq. intros x. rewrite !elem_of_union. tauto.
      * replace (1 + v) with (Z.succ v) by lia. rewrite Z.pow_succ_r by lia.
        apply Z.div_div; [lia|]. apply Z.pow_pos_nonneg; lia.
    + apply Z.eqb_neq in E. rewrite (multiplicity_zero i m Hi Hm E).
      cbn. now rewrite Z.div_1_r.
Qed.

(** X4. The inner [while] loop at candidate [i >= 2], entered with working
    value [m >= 1], completes exactly when the budget covers the
    multiplicity [v] of [i] in [m] (it divides [v] times); it then leaves
    the working value [m // i^v], which [i] no longer divides, and has
    added [i] to the set exactly when [v >= 1]. *)
Theorem inner_loop_divides_out fuel i pf m :
  2 <= i -> 1 <= m ->
  (multiplicity i m <= Z.of_nat fuel ->
     while_divides fuel i (pf, m) =
       Returns (if multiplicity i m =? 0 then pf else {[ i ]} ∪ pf,
                m / i ^ multiplicity i m) /\
     (m / i ^ multiplicity i m) mod i <> 0 /\
     m = i ^ multiplicity i m * (m / i ^ multiplicity i m)) /\
  (Z.of_nat fuel < multiplicity i m ->
     while_divides fuel i (pf, m) = OutOfFuel).
Proof.
  intros Hi Hm. rewrite while_divides_multiplicity by assumption.
  destruct (multiplicity_spec i m Hi Hm) as (Hv & Hd & Hnd).
  set (v := multiplicity i m) in *.
  assert (Hpos : 0 < i ^ v) by (apply Z.pow_pos_nonneg; lia).
  split; intros Hf.
  - destruct (Z.leb_spec v (Z.of_nat fuel)); [|lia].
    split; [reflexivity|].
    assert (Hmv : m = i ^ v * (m / i ^ v)).
    { apply mod0_div; [exact Hpos|]. apply Z.mod_divide; [lia|exact Hd]. }
    split; [|exact Hmv].
    intros Hmod. apply Hnd. apply Z.mod_divide in Hmod; [|lia].
    replace (v + 1) with (Z.succ v) by lia. rewrite Z.pow_succ_r by lia.
    rewrite Hmv. rewrite (Z.mul_comm i (i ^ v)).
    now apply Z.mul_divide_mono_l.
  - destruct (Z.leb_spec v (Z.of_nat fuel)); [lia|reflexivity].
Qed.

Lemma inner_loop_divides_out_witness :
  (multiplicity 2 60 <= Z.of_nat 2 ->
     while_divides 2 2 (∅, 60) =
       Returns (if multiplicity 2 60 =? 0 then ∅ else {[ 2 ]} ∪ ∅,
                60 / 2 ^ multiplicity 2 60) /\
     (60 / 2 ^ multiplicity 2 60) mod 2 <> 0 /\
     60 = 2 ^ multiplicity 2 60 * (60 / 2 ^ multiplicity 2 60)) /\
  (Z.of_nat 2 < multiplicity 2 60 ->
     while_divides 2 2 (∅, 60) = OutOfFuel).
Proof.
  apply (inner_loop_divides_out 2 2 ∅ 60); lia.
Defined.

Lemma for_each_one fuel l pf :
  (forall i, i ∈ l -> 2 <= i) ->
  for_each (while_divides fuel) l (pf, 1) = Returns (pf, 1).
Proof.
  induction l as [|i l IH]; intros Hl; cbn [for_each]; [reflexivity|].
  assert (Hi : 2 <= i) by (apply Hl; left).
  assert (Hw : while_divides fuel i (pf, 1) = Returns (pf, 1)).
  { destruct fuel; cbn [while_divides]; rewrite Z.mod_1_l by lia;
      reflexivity. }
  rewrite Hw. cbn [mbind outcome_bind]. apply IH.
  intros j Hj. apply Hl. now right.
Qed.

Lemma multiplicity_pow p k : 2 <= p -> 0 <= k -> multiplicity p (p ^ k) = k.
Proof.
  intros Hp Hk.
  assert (Hpos : 0 < p ^ k) by (apply Z.pow_pos_nonneg; lia).
  apply multiplicity_unique; [lia|lia|lia|apply Z.divide_refl|].
  intros Hd. apply Z.divide_pos_le in Hd; [|lia].
  replace (k + 1) with (Z.succ k) in Hd by lia.
  rewrite Z.pow_succ_r in Hd by lia. nia.
Qed.

(** X5. A power of two [2^k] with [2 <= k < 103] is the worst case of the
    inner loop: all [k] divisions happen at the first candidate [i = 2].
    The run completes exactly when the budget for one inner loop is at
    least [k], and the result is then [{2}]. *)
Theorem power_of_two_divisions fuel k :
  2 <= k < 103 ->
  find_prime_factors fuel (2 ^ k) =
  if k <=? Z.of_nat fuel then Returns {[ 2 ]} else OutOfFuel.
Proof.
  intros Hk.
  assert (H4 : 2 ^ 2 <= 2 ^ k) by (apply Z.pow_le_mono_r; lia).
  assert (Hlt : 2 ^ k < safe_limit).
  { unfold safe_limit. apply Z.pow_lt_mono_r; lia. }
  destruct (int_sqrt_good (2 ^ k) ltac:(lia)) as (b & Hb & Hbs & _).
  assert (Hb2 : 2 <= b).
  { pose proof (Z.sqrt_le_mono _ _ H4) as Hs.
    change (Z.sqrt (2 ^ 2)) with 2 in Hs. lia. }
  rewrite find_prime_factors_unfold, Hb. cbn [mbind outcome_bind].
  unfold factor_loop, range. rewrite seqZ_cons by lia. cbn [for_each].
  rewrite while_divides_multiplicity by lia.
  rewrite multiplicity_pow by lia.
  destruct (k <=? Z.of_nat fuel); [|reflexivity].
  cbn [mbind outcome_bind]. rewrite Z.div_same by lia.
  destruct (Z.eqb_spec k 0); [lia|].
  rewrite for_each_one.
  - cbn [mbind outcome_bind add_remaining]. change (1 <? 1) with false.
    cbn iota. rewrite (right_id_L ∅ (∪)). reflexivity.
  - intros i Hi. apply elem_of_seqZ in Hi. lia.
Qed.

Lemma power_of_two_divisions_witness :
  find_prime_factors 4 (2 ^ 5) =
  if 5 <=? Z.of_nat 4 then Returns {[ 2 ]} else OutOfFuel.
Proof.
  apply (power_of_two_divisions 4 5). lia.
Defined.

(** ** Consequences of the exact results below [safe_limit] *)

(** X6. For [2 <= n < 2^103], [find_divisors n] returns [[1, n]] exactly
    when [n] is prime. *)
Theorem two_divisors_iff_prime n :
  2 <= n < safe_limit ->
  find_divisors n = Returns [1; n] <-> Z.prime n.
Proof.
  intros Hn. split.
  - intros Hrun. apply find_divisors_spec in Hrun; [|lia].
    destruct Hrun as (_ & Hcomp & _). split; [lia|].
    intros d Hd Hdn. specialize (Hcomp d ltac:(lia) Hdn).
    apply elem_of_cons in Hcomp. destruct Hcomp as [?|Hcomp]; [lia|].
    apply list_elem_of_singleton in Hcomp. lia.
  - intros Hp.
    destruct (find_divisors_exact n ltac:(lia)) as [Hrun Hl].
    rewrite Hrun. f_equal. apply (divisor_list_unique n); [exact Hl|].
    split; [|split; [|split]].
    + intros d Hd. apply elem_of_cons in Hd. destruct Hd as [->|Hd].
      * split; [lia|apply Z.mod_1_r].
      * apply list_elem_of_singleton in Hd. subst d.
        split; [lia|apply Z.mod_same; lia].
    + intros d Hd Hdn.
      apply (Z.divide_prime_r _ _ Hp) in Hdn.
      destruct Hdn as [?|[?|[->| ->]]]; [lia|lia|left|right; left].
    + repeat constructor; lia.
    + apply NoDup_cons. split.
      * intros H. apply list_elem_of_singleton in H. lia.
      * apply NoDup_singleton.
Qed.

Lemma two_divisors_iff_prime_witness :
  find_divisors 13 = Returns [1; 13] <-> Z.prime 13.
Proof.
  apply (two_divisors_iff_prime 13). unfold safe_limit. lia.
Defined.

(** X7. For a prime [p] and [k >= 1] with [p^k < 2^103],
    [find_prime_factors (p^k)] returns [{p}]; with [k = 1] this is the
    case of a prime input, with [p = 2] that of a power of two. *)
Theorem prime_power_single_factor fuel p k :
  Z.prime p -> 1 <= k -> p ^ k < safe_limit -> (103 <= fuel)%nat ->
  find_prime_factors fuel (p ^ k) = Returns {[ p ]}.
Proof.
  intros Hp Hk Hlt Hfuel. pose proof (Z.prime_ge_2 _ Hp) as Hp2.
  assert (Hpos : 0 < p ^ k) by (apply Z.pow_pos_nonneg; lia).
  destruct (find_prime_factors_exact fuel (p ^ k) ltac:(lia) Hfuel)
    as (X & Hrun & HX).
  rewrite Hrun. f_equal. apply (prime_factor_set_unique (p ^ k)); [exact HX|].
  intros q. rewrite elem_of_singleton. split.
  - intros ->. split; [exact Hp|]. now apply Z.divide_pow_same_r.
  - intros [Hq Hd]. apply (Z.divide_prime_pp q p k); [assumption..|lia|exact Hd].
Qed.

Lemma prime_power_single_factor_witness :
  find_prime_factors 103 (3 ^ 4) = Returns {[ 3 ]}.
Proof.
  apply (prime_power_single_factor 103 3 4);
    [exact Z.prime_3|lia|unfold safe_limit; lia|lia].
Defined.

(** X8. For [a, b >= 1] with [a * b < 2^103], the prime factors of a
    product are the prime factors of the two arguments together. *)
Theorem prime_factors_of_product fuel a b Xa Xb :
  1 <= a -> 1 <= b -> a * b < safe_limit -> (103 <= fuel)%nat ->
  find_prime_factors fuel a = Returns Xa ->
  find_prime_factors fuel b = Returns Xb ->
  find_prime_factors fuel (a * b) = Returns (Xa ∪ Xb).
Proof.
  intros Ha Hb Hlt Hfuel Hra Hrb.
  assert (Hal : a < safe_limit) by nia.
  assert (Hbl : b < safe_limit) by nia.
  apply find_prime_factors_spec in Hra; [|lia].
  apply find_prime_factors_spec in Hrb; [|lia].
  destruct (find_prime_factors_exact fuel (a * b) ltac:(nia) Hfuel)
    as (X & Hrun & HX).
  rewrite Hrun. f_equal. apply (prime_factor_set_unique (a * b)); [exact HX|].
  intros q. rewrite elem_of_union, (Hra q), (Hrb q). split.
  - intros [[Hq Hd]|[Hq Hd]]; (split; [exact Hq|]).
    + now apply Z.divide_mul_l.
    + now apply Z.divide_mul_r.
  - intros [Hq Hd]. apply (Z.divide_prime_mul _ _ _ Hq) in Hd. tauto.
Qed.

Lemma prime_factors_of_product_witness :
  find_prime_factors 103 (12 * 100) = Returns ({[ 2; 3 ]} ∪ {[ 2; 5 ]}).
Proof.
  apply (prime_factors_of_product 103 12 100);
    [lia|lia|unfold safe_limit; lia|lia
    |vm_compute; reflexivity|vm_compute; reflexivity].
Defined.

(** X9. For [1 <= n < 2^103], the set returned by [find_prime_factors n]
    is exactly the set of prime elements of the list returned by
    [find_divisors n]. *)
Theorem prime_factors_are_prime_divisors fuel n X l p :
  1 <= n < safe_limit ->
  find_prime_factors fuel n = Returns X -> find_divisors n = Returns l ->
  p ∈ X <-> p ∈ l /\ Z.prime p.
Proof.
  intros Hn HX Hl.
  apply find_prime_factors_spec in HX; [|exact Hn].
  rewrite (HX p), (elem_of_find_divisors n l p Hn Hl). split.
  - intros [Hp Hd]. apply Z.prime_ge_2 in Hp as Hp2.
    split; [split; [lia|exact Hd]|exact Hp].
  - intros [[_ Hd] Hp]. auto.
Qed.

Lemma prime_factors_are_prime_divisors_witness :
  3 ∈ ({[ 2; 3 ]} : gset Z) <-> 3 ∈ [1; 2; 3; 4; 6; 12] /\ Z.prime 3.
Proof.
  apply (prime_factors_are_prime_divisors 4 12);
    [unfold safe_limit; lia|vm_compute; reflexivity|vm_compute; reflexivity].
Defined.

(** X10. For [a, b >= 1] below [2^103], the common elements of
    [find_divisors a] and [find_divisors b] are exactly the elements of
    [find_divisors (gcd a b)]. *)
Theorem common_divisors_gcd a b la lb lg d :
  1 <= a < safe_limit -> 1 <= b < safe_limit ->
  find_divisors a = Returns la -> find_divisors b = Returns lb ->
  find_divisors (Z.gcd a b) = Returns lg ->
  d ∈ lg <-> d ∈ la /\ d ∈ lb.
Proof.
  intros Ha Hb Hla Hlb Hlg.
  assert (Hg : 1 <= Z.gcd a b < safe_limit).
  { pose proof (Z.gcd_nonneg a b).
    assert (Z.gcd a b <> 0) by (rewrite Z.gcd_eq_0; lia).
    assert (Z.gcd a b <= a)
      by (apply Z.divide_pos_le; [lia|apply Z.gcd_divide_l]).
    lia. }
  rewrite (elem_of_find_divisors _ _ d Hg Hlg),
          (elem_of_find_divisors _ _ d Ha Hla),
          (elem_of_find_divisors _ _ d Hb Hlb).
  rewrite Z.gcd_divide_iff. tauto.
Qed.

Lemma common_divisors_gcd_witness :
  4 ∈ [1; 2; 4] <->
  4 ∈ [1; 2; 3; 4; 6; 12] /\ 4 ∈ [1; 2; 4; 5; 10; 20; 25; 50; 100].
Proof.
  apply (common_divisors_gcd 12 100);
    [unfold safe_limit; lia|unfold safe_limit; lia
    |vm_compute; reflexivity..].
Defined.

(** ** The divisor list read from both ends *)

Lemma sorted_fmap_div n (l : list Z) :
  0 <= n -> (forall d, d ∈ l -> 0 < d) -> StronglySorted Z.le l ->
  StronglySorted (flip Z.le) ((fun d => n / d) <$> l).
Proof.
  intros Hn. induction l as [|x l IH]; intros Hpos Hs; [constructor|].
  apply StronglySorted_cons in Hs. destruct Hs as [Hx Hs].
  rewrite fmap_cons. apply StronglySorted_cons. split.
  - apply Forall_fmap, Forall_forall. intros y Hy. unfold flip. cbn.
    rewrite Forall_forall in Hx. specialize (Hx y Hy).
    apply Z.div_le_compat_l; [exact Hn|].
    split; [apply Hpos; left|exact Hx].
  - apply IH; [|exact Hs]. intros d Hd. apply Hpos. now right.
Qed.

Lemma sorted_reverse (l : list Z) :
  StronglySorted (flip Z.le) l -> StronglySorted Z.le (reverse l).
Proof.
  induction l as [|x l IH]; intros Hs; [constructor|].
  apply StronglySorted_cons in Hs. destruct Hs as [Hx Hs].
  rewrite reverse_cons. apply StronglySorted_app. split; [|split].
  - intros y z Hy Hz. apply list_elem_of_singleton in Hz. subst z.
    rewrite elem_of_reverse in Hy. rewrite Forall_forall in Hx.
    exact (Hx y Hy).
  - now apply IH.
  - repeat constructor.
Qed.

Lemma div_div_divisor n d : 0 < d -> (d | n) -> 0 < n -> n / (n / d) = d.
Proof.
  intros Hd Hdn Hn.
  pose proof (mod0_div n d Hd ltac:(apply Z.mod_divide; [lia|exact Hdn])) as E.
  set (q := n / d) in *. assert (0 < q) by nia.
  rewrite E. apply Z.div_mul. lia.
Qed.

Lemma divisor_list_mirror n l :
  1 <= n -> divisor_list n l ->
  divisor_list n (reverse ((fun d => n / d) <$> l)).
Proof.
  intros Hn (Hsound & Hcomp & Hsort & Hnd).
  assert (Hpos : forall d, d ∈ l -> 0 < d /\ (d | n) /\ 0 < n / d /\
                                   n = d * (n / d)).
  { intros d Hd. destruct (Hsound d Hd) as [Hd0 Hm].
    pose proof (mod0_div n d Hd0 Hm) as E.
    split; [exact Hd0|]. split; [apply Z.mod_divide; [lia|exact Hm]|].
    split; [nia|exact E]. }
  split; [|split; [|split]].
  - intros x Hx. rewrite elem_of_reverse, list_elem_of_fmap in Hx.
    destruct Hx as (d & -> & Hd). destruct (Hpos d Hd) as (Hd0 & _ & Hq & E).
    split; [exact Hq|]. apply Z.mod_divide; [lia|].
    exists d. lia.
  - intros x Hx Hxn. apply elem_of_reverse, list_elem_of_fmap.
    exists (n / x). split; [symmetry; apply div_div_divisor; [assumption..|lia]|].
    pose proof (mod0_div n x Hx ltac:(apply Z.mod_divide; [lia|exact Hxn])) as E.
    apply Hcomp; [nia|]. exists x. lia.
  - apply sorted_reverse, sorted_fmap_div; [lia| |exact Hsort].
    intros d Hd. now apply Hpos.
  - rewrite reverse_Permutation. apply NoDup_fmap_2_strong; [|exact Hnd].
    intros x y Hx Hy E.
    destruct (Hpos x Hx) as (Hx0 & Hxn & _), (Hpos y Hy) as (Hy0 & Hyn & _).
    rewrite <- (div_div_divisor n x), <- (div_div_divisor n y) by (assumption || lia).
    now rewrite E.
Qed.

Lemma find_divisors_mirror n l :
  1 <= n < safe_limit -> find_divisors n = Returns l ->
  reverse l = (fun d => n / d) <$> l.
Proof.
  intros Hn Hl. pose proof (find_divisors_spec n l Hn Hl) as Hdl.
  pose proof (divisor_list_mirror n l ltac:(lia) Hdl) as Hm.
  rewrite <- (divisor_list_unique n _ _ Hm Hdl) at 1.
  apply reverse_involutive.
Qed.

Lemma find_divisors_mirror_lookup n l i d :
  1 <= n < safe_limit -> find_divisors n = Returns l ->
  l !! i = Some d -> l !! (length l - S i)%nat = Some (n / d).
Proof.
  intros Hn Hl Hi. pose proof (lookup_lt_Some _ _ _ Hi) as Hlen.
  rewrite <- reverse_lookup by exact Hlen.
  rewrite (find_divisors_mirror n l Hn Hl), list_lookup_fmap, Hi.
  reflexivity.
Qed.

(** X11. For [1 <= n < 2^103] the list returned by [find_divisors n],
    read backwards, is the list of the cofactors [n // d]: the divisor at
    position [i] from the front and the one at position [i] from the back
    multiply to [n]. *)
Theorem divisors_mirror n l :
  1 <= n < safe_limit -> find_divisors n = Returns l ->
  reverse l = (fun d => n / d) <$> l /\
  forall i d e, l !! i = Some d -> l !! (length l - S i)%nat = Some e ->
                d * e = n.
Proof.
  intros Hn Hl. split; [exact (find_divisors_mirror n l Hn Hl)|].
  intros i d e Hd He.
  rewrite (find_divisors_mirror_lookup n l i d Hn Hl Hd) in He.
  apply (inj Some) in He. subst e.
  assert (Hdl : d ∈ l) by (apply list_elem_of_lookup; eauto).
  apply (elem_of_find_divisors n l d Hn Hl) in Hdl. destruct Hdl as [Hd0 Hdn].
  symmetry. apply mod0_div; [exact Hd0|]. apply Z.mod_divide; [lia|exact Hdn].
Qed.

Lemma divisors_mirror_witness :
  reverse [1; 2; 3; 4; 6; 12] = (fun d => 12 / d) <$> [1; 2; 3; 4; 6; 12] /\
  forall i d e, [1; 2; 3; 4; 6; 12] !! i = Some d ->
    [1; 2; 3; 4; 6; 12] !! (length [1; 2; 3; 4; 6; 12] - S i)%nat = Some e ->
    d * e = 12.
Proof.
  apply (divisors_mirror 12);
    [unfold safe_limit; lia|vm_compute; reflexivity].
Defined.

(** X12. For [1 <= n < 2^103] the list returned by [find_divisors n] has
    odd length exactly when [n] is a perfect square (the square root is
    the one divisor that is its own partner). *)
Theorem odd_length_iff_square n l :
  1 <= n < safe_limit -> find_divisors n = Returns l ->
  Nat.Odd (length l) <-> exists r, r * r = n.
Proof.
  intros Hn Hl. split.
  - intros [k Hk].
    destruct (lookup_lt_is_Some_2 l k ltac:(lia)) as [d Hd].
    pose proof (find_divisors_mirror_lookup n l k d Hn Hl Hd) as Hm.
    replace (length l - S k)%nat with k in Hm by lia.
    rewrite Hd in Hm. apply (inj Some) in Hm.
    assert (Hdl : d ∈ l) by (apply list_elem_of_lookup; eauto).
    apply (elem_of_find_divisors n l d Hn Hl) in Hdl.
    destruct Hdl as [Hd0 Hdn]. exists d.
    pose proof (mod0_div n d Hd0
                  ltac:(apply Z.mod_divide; [lia|exact Hdn])) as E.
    rewrite <- Hm in E. lia.
  - intros [r Hr].
    assert (Ha : 0 < Z.abs r /\ Z.abs r * Z.abs r = n) by nia.
    destruct Ha as [Ha0 Ha]. set (a := Z.abs r) in *.
    assert (Hal : a ∈ l).
    { apply (elem_of_find_divisors n l a Hn Hl).
      split; [exact Ha0|]. exists a. lia. }
    apply list_elem_of_lookup in Hal. destruct Hal as [i Hi].
    pose proof (find_divisors_mirror_lookup n l i a Hn Hl Hi) as Hm.
    replace (n / a) with a in Hm
      by (rewrite <- Ha; symmetry; apply Z.div_mul; lia).
    pose proof (find_divisors_spec n l Hn Hl) as (_ & _ & _ & Hnd).
    pose proof (NoDup_lookup l _ _ a Hnd Hi Hm) as E.
    pose proof (lookup_lt_Some _ _ _ Hi). exists i. lia.
Qed.

Lemma odd_length_iff_square_witness :
  Nat.Odd (length [1; 2; 4; 8; 16]) <-> exists r, r * r = 16.
Proof.
  apply (odd_length_iff_square 16);
    [unfold safe_limit; lia|vm_compute; reflexivity].
Defined.

(** ** Counting the prime factors *)

Lemma multiplicity_pos p n :
  2 <= p -> 1 <= n -> (p | n) -> 1 <= multiplicity p n.
Proof.
  intros Hp Hn Hd. apply Z.mod_divide in Hd; [|lia].
  destruct (multiplicity_step p n Hp Hn Hd) as [Hq ->].
  destruct (multiplicity_spec p (n / p) Hp Hq) as [Hv _]. lia.
Qed.

Lemma pow2_le_prime_power_list n (L : list Z) :
  1 <= n -> (forall p, p ∈ L -> Z.prime p /\ (p | n)) ->
  2 ^ Z.of_nat (length L) <=
  foldr (fun p acc => p ^ multiplicity p n * acc) 1 L.
Proof.
  intros Hn. induction L as [|p L IH]; intros HL; [cbn; lia|].
  cbn [foldr length]. rewrite Nat2Z.inj_succ, Z.pow_succ_r by lia.
  destruct (HL p ltac:(left)) as [Hp Hd]. apply Z.prime_ge_2 in Hp.
  pose proof (multiplicity_pos p n Hp Hn Hd) as Hv.
  assert (Hpv : 2 <= p ^ multiplicity p n).
  { apply Z.le_trans with (p ^ 1); [rewrite Z.pow_1_r; exact Hp|].
    apply Z.pow_le_mono_r; lia. }
  specialize (IH ltac:(intros q Hq; apply HL; now right)).
  assert (0 < 2 ^ Z.of_nat (length L)) by (apply Z.pow_pos_nonneg; lia).
  nia.
Qed.

(** X13. For [1 <= n < 2^103] the set returned by [find_prime_factors n]
    has at most [log2 n] elements. *)
Theorem number_of_prime_factors fuel n X :
  1 <= n < safe_limit -> find_prime_factors fuel n = Returns X ->
  Z.of_nat (size X) <= Z.log2 n.
Proof.
  intros Hn HX. apply find_prime_factors_spec in HX; [|exact Hn].
  apply Z.log2_le_pow2; [lia|].
  pose proof (prime_power_product_correct n X ltac:(lia) HX) as Hprod.
  unfold prime_power_product, set_fold in Hprod. cbn [compose] in Hprod.
  apply Z.le_trans with
    (foldr (fun p acc => p ^ multiplicity p n * acc) 1 (elements X));
    [|rewrite Hprod; lia].
  apply pow2_le_prime_power_list; [lia|].
  intros p Hp. apply elem_of_elements in Hp. now apply HX.
Qed.

Lemma number_of_prime_factors_witness :
  Z.of_nat (size ({[ 2; 3; 5 ]} : gset Z)) <= Z.log2 60.
Proof.
  apply (number_of_prime_factors 6 60);
    [unfold safe_limit; lia|vm_compute; reflexivity].
Defined.

(** ** Divisors of divisors *)

(** X14. For [1 <= n < 2^103] and a [d] in the list returned by
    [find_divisors n]: every element of [find_divisors d] is in the list
    for [n], and every element of [find_prime_factors d] is in the set
    returned by [find_prime_factors n]. *)
Theorem divisors_of_divisor n l d ld fuel X Xd :
  1 <= n < safe_limit -> find_divisors n = Returns l -> d ∈ l ->
  find_divisors d = Returns ld ->
  find_prime_factors fuel n = Returns X ->
  find_prime_factors fuel d = Returns Xd ->
  (forall e, e ∈ ld -> e ∈ l) /\ Xd ⊆ X.
Proof.
  intros Hn Hl Hd Hld HX HXd.
  apply (elem_of_find_divisors n l d Hn Hl) in Hd. destruct Hd as [Hd0 Hdn].
  assert (Hdl : 1 <= d < safe_limit).
  { pose proof (Z.divide_pos_le d n ltac:(lia) Hdn). lia. }
  apply find_prime_factors_spec in HX; [|exact Hn].
  apply find_prime_factors_spec in HXd; [|exact Hdl].
  split.
  - intros e He. apply (elem_of_find_divisors d ld e Hdl Hld) in He.
    apply (elem_of_find_divisors n l e Hn Hl).
    destruct He as [He0 Hed]. split; [exact He0|].
    now apply Z.divide_trans with d.
  - intros p Hp. apply HXd in Hp. apply HX. destruct Hp as [Hp Hpd].
    split; [exact Hp|]. now apply Z.divide_trans with d.
Qed.

Lemma divisors_of_divisor_witness :
  (forall e, e ∈ [1; 2; 3; 4; 6; 12] ->
             e ∈ [1; 2; 3; 4; 5; 6; 10; 12; 15; 20; 30; 60]) /\
  ({[ 2; 3 ]} : gset Z) ⊆ {[ 2; 3; 5 ]}.
Proof.
  apply (divisors_of_divisor 60 _ 12 _ 6%nat);
    [unfold safe_limit; lia|vm_compute; reflexivity
    |do 7 right; left|vm_compute; reflexivity..].
Defined.

(** ** Perfect squares *)

(** X15. For a perfect square [n = r * r] with [r >= 1] and [n < 2^103]
    the loop bound [int(math.sqrt(n))] is exactly [r], and [r] is the
    middle element of the list returned by [find_divisors n]. *)
Theorem perfect_square_middle r l :
  1 <= r -> r * r < safe_limit -> find_divisors (r * r) = Returns l ->
  int_sqrt (r * r) = Returns r /\ l !! (length l / 2)%nat = Some r.
Proof.
  intros Hr Hlt Hl. assert (Hn : 1 <= r * r < safe_limit) by nia. split.
  - destruct (int_sqrt_good (r * r) Hn) as (b & Hb & _ & Hex).
    rewrite Z.sqrt_square in Hex by lia. rewrite Hb, Hex; [reflexivity|nia].
  - assert (Hrl : r ∈ l).
    { apply (elem_of_find_divisors _ l r Hn Hl).
      split; [lia|]. exists r. reflexivity. }
    apply list_elem_of_lookup in Hrl. destruct Hrl as [i Hi].
    pose proof (find_divisors_mirror_lookup _ l i r Hn Hl Hi) as Hm.
    rewrite Z.div_mul in Hm by lia.
    pose proof (find_divisors_spec _ l Hn Hl) as (_ & _ & _ & Hnd).
    pose proof (NoDup_lookup l _ _ r Hnd Hi Hm) as E.
    pose proof (lookup_lt_Some _ _ _ Hi) as Hlen.
    replace (length l / 2)%nat with i; [exact Hi|].
    apply (Nat.div_unique _ 2 i 1); lia.
Qed.

Lemma perfect_square_middle_witness :
  int_sqrt (10 * 10) = Returns 10 /\
  [1; 2; 4; 5; 10; 20; 25; 50; 100] !!
    Nat.div (length [1; 2; 4; 5; 10; 20; 25; 50; 100]) 2 = Some 10.
Proof.
  apply (perfect_square_middle 10);
    [lia|unfold safe_limit; lia|vm_compute; reflexivity].
Defined.

(** ** The budget of the inner loop *)

Lemma multiplicity_le_log2 i m :
  2 <= i -> 1 <= m -> multiplicity i m <= Z.log2 m.
Proof.
  intros Hi Hm. destruct (multiplicity_spec i m Hi Hm) as (Hv & Hd & _).
  apply Z.log2_le_pow2; [lia|].
  apply Z.divide_pos_le in Hd; [|lia].
  apply Z.le_trans with (i ^ multiplicity i m); [|exact Hd].
  apply Z.pow_le_mono_l. lia.
Qed.

Lemma div_pow_multiplicity_bounds i m :
  2 <= i -> 1 <= m -> 1 <= m / i ^ multiplicity i m <= m.
Proof.
  intros Hi Hm. destruct (multiplicity_spec i m Hi Hm) as (Hv & Hd & _).
  assert (Hpos : 0 < i ^ multiplicity i m) by (apply Z.pow_pos_nonneg; lia).
  pose proof (mod0_div m _ Hpos
                ltac:(apply Z.mod_divide; [lia|exact Hd])) as E.
  set (q := m / i ^ multiplicity i m) in *.
  set (P := i ^ multiplicity i m) in *. clearbody q P. nia.
Qed.

(** X16. The inner [while] loop never divides more than [log2 n] times:
    for every [n >= 1] that converts to a float, a budget of [log2 n]
    divisions per run of the inner loop is enough for
    [find_prime_factors n] to return. *)
Theorem log2_divisions_suffice fuel n :
  1 <= n < 2 ^ 1024 - 2 ^ 970 -> Z.log2 n <= Z.of_nat fuel ->
  exists X, find_prime_factors fuel n = Returns X.
Proof.
  intros Hn Hfuel. rewrite find_prime_factors_unfold.
  destruct (int_sqrt_returns n ltac:(lia)) as (b & Hb). rewrite Hb.
  cbn [mbind outcome_bind].
  assert (Hloop : exists st, factor_loop fuel n b = Returns st).
  { unfold factor_loop. destruct (Z_lt_le_dec b 1) as [Hb1|Hb1].
    - rewrite range_nil by lia. eexists. reflexivity.
    - destruct (for_each_range_inv (fun _ st => 1 <= st.2 <= n)
                  (while_divides fuel) 2 (b + 1) (∅, n)) as (st & Hst & _).
      + lia.
      + cbn. lia.
      + intros i [pf m] Hi Hm. cbn [snd] in Hm.
        rewrite while_divides_multiplicity by lia.
        pose proof (multiplicity_le_log2 i m ltac:(lia) ltac:(lia)) as Hv.
        pose proof (Z.log2_le_mono m n ltac:(lia)) as Hmono.
        destruct (Z.leb_spec (multiplicity i m) (Z.of_nat fuel)); [|lia].
        eexists. split; [reflexivity|]. cbn [snd].
        pose proof (div_pow_multiplicity_bounds i m ltac:(lia) ltac:(lia)).
        lia.
      + exists st. exact Hst. }
  destruct Hloop as (st & ->). cbn [mbind outcome_bind].
  eexists. reflexivity.
Qed.

Lemma log2_divisions_suffice_witness :
  exists X, find_prime_factors 5 60 = Returns X.
Proof.
  apply (log2_divisions_suffice 5 60); [|vm_compute; discriminate].
  split; [lia|]. vm_compute. reflexivity.
Defined.
